(** * Real-time fan-out core: replayable event stream and connection manager

    Shallow embedding of three Python modules of the repository:

    - [server-sent-events/implementation/python/main.py]: the module-level
      [event_history] / [event_id_counter] pair and the [event_generator]
      asynchronous generator (module [EventStream] below);
    - [websocket/implementation/python/main.py]: the [ConnectionManager]
      class (module [Connections] below) and the chat room endpoint
      (module [ChatRoom]);
    - [rest-api/implementation/python/main.py]: the user and post handlers
      and the rate limiter (module [RestApi]).

    Python integers are unbounded, so ids and counters are [Z].  A [dict] is a
    [gmap], a [set] is a [gset], a [list] is a [list]. *)

From Stdlib Require Import Ascii.
From stdpp Require Import gmap strings list fin_maps sorting pretty.

Local Open Scope Z_scope.

(* ===================================================================== *)
(** ** Server-sent events *)
(* ===================================================================== *)

Module EventStream.

(** The dict built at lines 65-69: [{'timestamp': .., 'value': .., 'message': ..}]. *)
Record event_data := EventData {
  timestamp : string;
  value : Z;
  message : string
}.

(** The dict stored in [event_history] (lines 72-76), keys ['id'], ['type'],
    ['data']. *)
Record event := Event {
  id : Z;
  type : string;
  data : event_data
}.

(** What [json.dumps] is applied to: the connected notice of line 55 or the
    [event_data] of an update. *)
Inductive payload :=
| ConnectedNotice (text : string)
| UpdateData (d : event_data).

(** One string yielded by the generator, kept structured:
    [IdLine n] is [f"id: {n}\n"], [EventLine t] is [f"event: {t}\n"],
    [DataLine p] is [f"data: {json.dumps(p)}\n\n"] and [CommentLine c] is
    [f": {c}\n\n"] (a frame with no id, event or data field). *)
Inductive chunk :=
| IdLine (n : Z)
| EventLine (t : string)
| DataLine (p : payload)
| CommentLine (c : string).

(** The two module-level globals (lines 23-24). *)
Record store := Store {
  event_history : list event;
  event_id_counter : Z
}.

Definition initial : store := Store [] 0.

(** *** [int(last_event_id)]

    The header value is a string of Latin-1 code points.  Surrounding
    whitespace is stripped, one sign is allowed, and the decimal digits may
    be separated by single underscores; a text of more than 4300 digits is
    refused (the interpreter's default [int_max_str_digits]).  [None] stands
    for [ValueError]. *)

(** The whitespace [int] strips: code points 9-13 and 32, and the two
    Latin-1 spaces 133 and 160, which it first turns into blanks.  The
    separators 28-31 are not stripped. *)
Definition is_space (c : ascii) : bool :=
  let n := nat_of_ascii c in
  ((9 <=? n)%nat && (n <=? 13)%nat) || (n =? 32)%nat
  || (n =? 133)%nat || (n =? 160)%nat.

Definition digit_of (c : ascii) : option Z :=
  let n := nat_of_ascii c in
  if ((48 <=? n)%nat && (n <=? 57)%nat) then Some (Z.of_nat n - 48) else None.

Fixpoint lstrip (cs : list ascii) : list ascii :=
  match cs with
  | c :: cs' => if is_space c then lstrip cs' else cs
  | [] => []
  end.

Definition strip (cs : list ascii) : list ascii :=
  reverse (lstrip (reverse (lstrip cs))).

(** [after_digit] tells whether the previous character was a digit: only
    then may an underscore or the end of the text follow. *)
Fixpoint digits (acc : Z) (after_digit : bool) (cs : list ascii) : option Z :=
  match cs with
  | [] => if after_digit then Some acc else None
  | c :: cs' =>
      match digit_of c with
      | Some d => digits (10 * acc + d) true cs'
      | None =>
          if (nat_of_ascii c =? 95)%nat && after_digit
          then digits acc false cs'
          else None
      end
  end.

Definition max_str_digits : Z := 4300.

(** The number of digits of a text, underscores not counted. *)
Definition digit_count (cs : list ascii) : nat :=
  length (filter (λ c, is_Some (digit_of c)) cs).

Definition py_int (s : string) : option Z :=
  match strip (String.list_ascii_of_string s) with
  | c :: cs =>
      if decide (Z.of_nat (digit_count (c :: cs)) ≤ max_str_digits) then
        if (nat_of_ascii c =? 45)%nat then Z.opp <$> digits 0 false cs
        else if (nat_of_ascii c =? 43)%nat then digits 0 false cs
        else digits 0 false (c :: cs)
      else None
  | [] => None
  end.

(** *** The generator, one atomic block at a time *)

(** Line 42: [[e for e in event_history if e['id'] > last_id]]. *)
Definition missed_events (event_history : list event) (last_id : Z) : list event :=
  filter (λ e, last_id < id e) event_history.

(** Lines 45-47, the three yields per replayed event. *)
Definition replay_chunks (e : event) : list chunk :=
  [IdLine (id e); EventLine (type e); DataLine (UpdateData (data e))].

(** Lines 39-49.  [if last_event_id:] is false for [None] and for the empty
    string; a [ValueError] from [int] is swallowed by the [except]. *)
Definition replay (last_event_id : option string) (st : store) : list chunk :=
  match last_event_id with
  | None => []
  | Some s =>
      if decide (s = "") then []
      else match py_int s with
           | Some last_id => missed_events (event_history st) last_id ≫= replay_chunks
           | None => []
           end
  end.

(** Lines 52-55: the connected event takes an id from the shared counter and
    is not stored. *)
Definition connected (st : store) : store * list chunk :=
  let c := event_id_counter st + 1 in
  (Store (event_history st) c,
   [IdLine c; EventLine "connected";
    DataLine (ConnectedNotice "Connected to SSE stream")]).

(** Lines 61-85, run without suspension up to the first yield: [now] is
    [datetime.utcnow().isoformat()] and [r] is [random.randint(1, 100)]. *)
Definition update (now : string) (r : Z) (st : store) : store * list chunk :=
  let c := event_id_counter st + 1 in
  let d := EventData now r ("Update #" +:+ pretty c) in
  let h := event_history st ++ [Event c "update" d] in
  let h' := if decide (100 < length h)%nat then drop 1 h else h in
  (Store h' c, [IdLine c; EventLine "update"; DataLine (UpdateData d)]).

(** Lines 88-89, evaluated when the generator is resumed after the yields of
    the update: it reads the shared counter as it is then. *)
Definition heartbeat (st : store) : list chunk :=
  if decide (event_id_counter st `mod` 15 = 0) then [CommentLine "heartbeat"] else [].

(** The loop of lines 58-93 for as many iterations as the consumer pulls;
    each iteration consumes one clock reading and one random number. *)
Fixpoint live (ticks : list (string * Z)) (st : store) : store * list chunk :=
  match ticks with
  | [] => (st, [])
  | (now, r) :: ticks' =>
      let '(st1, o1) := update now r st in
      let o2 := heartbeat st1 in
      let '(st2, o3) := live ticks' st1 in
      (st2, o1 ++ o2 ++ o3)
  end.

(** A session that runs alone: replay, connected event, live loop. *)
Definition event_generator (last_event_id : option string)
    (ticks : list (string * Z)) (st : store) : store * list chunk :=
  let o0 := replay last_event_id st in
  let '(st1, o1) := connected st in
  let '(st2, o2) := live ticks st1 in
  (st2, o0 ++ o1 ++ o2).

(** *** Several sessions on the shared globals

    The generators of different requests interleave at their suspension
    points ([yield], [await]); between two suspension points a block runs
    atomically.  The replay reads the log once (the list comprehension of
    line 42), the connected event and an update each change the globals
    before their first yield, and the heartbeat test of line 88 runs after
    the yields of its update. *)
Inductive step :=
| Replay (last_event_id : option string)
| Connected
| Update (now : string) (r : Z)
| Heartbeat.

Definition exec (a : step) (st : store) : store * list chunk :=
  match a with
  | Replay c => (st, replay c st)
  | Connected => connected st
  | Update now r => update now r st
  | Heartbeat => (st, heartbeat st)
  end.

(** A schedule names, for each atomic block, the session that runs it. *)
Fixpoint run (tr : list (nat * step)) (st : store) : store * list (nat * chunk) :=
  match tr with
  | [] => (st, [])
  | (sid, a) :: tr' =>
      let '(st1, o1) := exec a st in
      let '(st2, o2) := run tr' st1 in
      (st2, ((λ c, (sid, c)) <$> o1) ++ o2)
  end.

(** The schedule of one session running alone. *)
Definition session (sid : nat) (last_event_id : option string)
    (ticks : list (string * Z)) : list (nat * step) :=
  (sid, Replay last_event_id) :: (sid, Connected) ::
  (ticks ≫= λ t, [(sid, Update t.1 t.2); (sid, Heartbeat)]).

(** The events appended by a schedule, in order of appending. *)
Fixpoint appended (tr : list (nat * step)) (st : store) : list event :=
  match tr with
  | [] => []
  | (_, a) :: tr' =>
      let st1 := (exec a st).1 in
      match a with
      | Update now r =>
          Event (event_id_counter st1) "update"
                (EventData now r ("Update #" +:+ pretty (event_id_counter st1)))
          :: appended tr' st1
      | _ => appended tr' st1
      end
  end.

(** *** Observers used in the statements *)

(** The chunks a schedule's output holds for session [sid]. *)
Definition output_of (sid : nat) (out : list (nat * chunk)) : list chunk :=
  snd <$> filter (λ p, p.1 = sid) out.

(** The ids of the events of type [t] in an output stream: an [IdLine]
    directly followed by the [EventLine] of that type. *)
Fixpoint event_ids (t : string) (out : list chunk) : list Z :=
  match out with
  | IdLine n :: ((EventLine t' :: _) as out') =>
      if decide (t' = t) then n :: event_ids t out' else event_ids t out'
  | _ :: out' => event_ids t out'
  | [] => []
  end.

(** Every id an output stream carries, in order. *)
Definition id_lines (out : list chunk) : list Z :=
  omap (λ c, match c with IdLine n => Some n | _ => None end) out.

(** The ids a schedule gives to connected events, read off the id lines
    they yield. *)
Fixpoint connected_ids (tr : list (nat * step)) (st : store) : list Z :=
  match tr with
  | [] => []
  | (_, a) :: tr' =>
      match a with
      | Connected => id_lines (exec a st).2
      | _ => []
      end ++ connected_ids tr' (exec a st).1
  end.

Definition is_comment (c : chunk) : bool :=
  match c with CommentLine _ => true | _ => false end.

Definition ids (h : list event) : list Z := id <$> h.

(** The last hundred elements of a list of appended events. *)
Definition retained (a : list event) : list event := drop (length a - 100) a.

(** The id the specification gives the next append: the largest stored id
    plus one, or 1 on an empty log.  Stored ids increase, so the largest is
    the last. *)
Definition spec_next_id (h : list event) : Z :=
  match last (ids h) with
  | Some m => m + 1
  | None => 1
  end.

(** What holds of the two globals after any schedule. *)
Record inv (st : store) : Prop := Inv {
  inv_sorted : StronglySorted Z.lt (ids (event_history st));
  inv_bound : Forall (λ i, 1 ≤ i ≤ event_id_counter st) (ids (event_history st));
  inv_size : (length (event_history st) ≤ 100)%nat;
  inv_counter : 0 ≤ event_id_counter st
}.

(** *** Concrete stores and schedules *)

(** The globals after one session of 99 iterations on a fresh process: the
    connected event took the id 1, the log holds the ids 2 to 100 and the
    counter is at 100. *)
Definition log_2_100 : store :=
  (event_generator None (replicate 99 ("t", 1)) initial).1.

(** Three clients connect one after the other; then their loops wake up in
    turn, [rounds] times (all three sleep the same two seconds). *)
Definition three_sessions (rounds : nat) : list (nat * step) :=
  [(0, Replay None); (0, Connected); (1, Replay None); (1, Connected);
   (2, Replay None); (2, Connected)]%nat ++
  mjoin (replicate rounds
    [(0, Update "t" 1); (0, Heartbeat); (1, Update "t" 1); (1, Heartbeat);
     (2, Update "t" 1); (2, Heartbeat)]%nat).

End EventStream.

(* ===================================================================== *)
(** ** WebSocket connection manager *)
(* ===================================================================== *)

Module Connections.

(** A JSON message ([dict]) handed to [send_json]. *)
Record message := Message { fields : list (string * string) }.

(** Exceptions a transport send can end in. *)
Inductive exn := WebSocketDisconnect | RuntimeError.

(** A call either returns or raises. *)
Inductive outcome (A : Type) :=
| Return (a : A)
| Raise (e : exn).
Arguments Return {A} a.
Arguments Raise {A} e.

(** The framework's [WebSocket] object as far as the manager uses it: the
    peer it talks to, and whether (and how) a send on it fails. *)
Record WebSocket := Socket {
  peer : nat;
  failure : option exn
}.

Definition send_json (ws : WebSocket) (m : message) : outcome unit :=
  match failure ws with
  | None => Return tt
  | Some e => Raise e
  end.

(** What a call did, in order: a send that went through, a send that
    raised, a call of [disconnect].  A method returns its result, the
    manager it leaves behind and this log. *)
Inductive action :=
| Sent (client_id : string) (m : message)
| Failed (client_id : string) (m : message)
| Disconnect (client_id : string).

(** The two attributes set by [__init__] (lines 25-29).  Iteration over a
    [gmap] or [gset] goes in key order where Python goes in insertion or
    hash order; the general statements below do not depend on the order. *)
Record ConnectionManager := Manager {
  active_connections : gmap string WebSocket;
  rooms : gmap string (gset string)
}.

Definition new : ConnectionManager := Manager ∅ ∅.

(** Lines 31-36; [client_id] is the [str(uuid.uuid4())] drawn by the call. *)
Definition connect (websocket : WebSocket) (client_id : string)
    (self : ConnectionManager) : string * ConnectionManager :=
  (client_id, Manager (<[client_id := websocket]> (active_connections self)) (rooms self)).

(** Lines 38-45. *)
Definition disconnect (client_id : string) (self : ConnectionManager) : ConnectionManager :=
  Manager
    (if decide (is_Some (active_connections self !! client_id))
     then delete client_id (active_connections self)
     else active_connections self)
    ((λ room, room ∖ {[client_id]}) <$> rooms self).

(** Lines 47-50: no [try] around the send, so its exception reaches the
    caller; a normal return carries no value. *)
Definition send_personal_message (m : message) (client_id : string)
    (self : ConnectionManager) : outcome unit * ConnectionManager * list action :=
  match active_connections self !! client_id with
  | Some ws =>
      match send_json ws m with
      | Return _ => (Return tt, self, [Sent client_id m])
      | Raise e => (Raise e, self, [Failed client_id m])
      end
  | None => (Return tt, self, [])
  end.

(** Lines 93-97. *)
Definition join_room (client_id room : string) (self : ConnectionManager)
    : ConnectionManager :=
  let rs := if decide (is_Some (rooms self !! room)) then rooms self
            else <[room := ∅]> (rooms self) in
  Manager (active_connections self) (alter (λ s, s ∪ {[client_id]}) room rs).

(** Lines 99-102. *)
Definition leave_room (client_id room : string) (self : ConnectionManager)
    : ConnectionManager :=
  Manager (active_connections self) (alter (λ s, s ∖ {[client_id]}) room (rooms self)).

(** Lines 104-106. *)
Definition get_room_count (room : string) (self : ConnectionManager) : nat :=
  size (default ∅ (rooms self !! room)).

(** *** Other tasks

    The manager is one object shared by the handlers of all connections.
    A broadcast is suspended at each [await ... send_json]; while it is
    suspended the event loop runs other handlers, which call [connect],
    [disconnect], [join_room] and [leave_room] on the same manager.  The
    synchronous methods above run without suspension. *)
Inductive call :=
| Connects (websocket : WebSocket) (client_id : string)
| Disconnects (client_id : string)
| Joins (client_id room : string)
| Leaves (client_id room : string).

(** What another task does to the manager during one suspension: one call,
    or nothing.  After one call a changed set of keys shows in the size,
    which is what the iterators test; what an iterator does when entries
    were both added and removed within one suspension is left open by the
    language ("may raise a RuntimeError or fail to iterate over all
    entries") and is not modelled. *)
Definition other_task (c : option call) (self : ConnectionManager) : ConnectionManager :=
  match c with
  | None => self
  | Some (Connects websocket client_id) => (connect websocket client_id self).2
  | Some (Disconnects client_id) => disconnect client_id self
  | Some (Joins client_id room) => join_room client_id room self
  | Some (Leaves client_id room) => leave_room client_id room self
  end.

(** The manager after the calls of an environment.  An environment [env]
    lists what the other tasks do during the successive sends of a
    broadcast, in order; sends beyond the end of the list are not interfered
    with, so [[]] is a broadcast that runs alone. *)
Definition others (env : list (option call)) (self : ConnectionManager)
    : ConnectionManager :=
  foldl (λ s c, other_task c s) self env.

(** A failed send adds its target to the list [disconnected]. *)
Definition collect (client_id : string) (r : outcome (list string))
    : outcome (list string) :=
  match r with
  | Return disconnected => Return (client_id :: disconnected)
  | Raise e => Raise e
  end.

(** The loop of lines 56-63 over the items of the dict, when nothing else
    touches the dict: the ids collected in [disconnected] and what happened
    on the transports. *)
Fixpoint broadcast_pass (m : message) (exclude : option string)
    (items : list (string * WebSocket)) : list string * list action :=
  match items with
  | [] => ([], [])
  | (client_id, connection) :: items' =>
      let '(disconnected, log) := broadcast_pass m exclude items' in
      if decide (exclude = Some client_id) then (disconnected, log)
      else match send_json connection m with
           | Return _ => (disconnected, Sent client_id m :: log)
           | Raise _ => (client_id :: disconnected, Failed client_id m :: log)
           end
  end.

(** The loop of lines 56-63 as it runs: the [for] iterates the dict itself,
    not a copy.  Each step of the iterator, the one that finds the dict
    exhausted included, first compares the size of the dict with its size
    [used] when the loop began and raises [RuntimeError] if they differ;
    the [for] is outside the [try], so that error leaves the method.
    [keys] are the keys not yet visited; the value is read from the dict as
    it is at that step.  A call of another task changes the set of keys
    only together with the size, so a key still to visit is found as long
    as the size test passes. *)
Fixpoint broadcast_loop (m : message) (exclude : option string) (used : nat)
    (keys : list string) (env : list (option call)) (self : ConnectionManager)
    : outcome (list string) * ConnectionManager * list action :=
  if decide (size (active_connections self) = used) then
    match keys with
    | [] => (Return [], self, [])
    | client_id :: keys' =>
        if decide (exclude = Some client_id)
        then broadcast_loop m exclude used keys' env self
        else
          match active_connections self !! client_id with
          | None => (Raise RuntimeError, self, [])
          | Some connection =>
              let '(r, self', log) :=
                broadcast_loop m exclude used keys' (tail env)
                  (other_task (default None (head env)) self) in
              match send_json connection m with
              | Return _ => (r, self', Sent client_id m :: log)
              | Raise _ => (collect client_id r, self', Failed client_id m :: log)
              end
          end
    end
  else (Raise RuntimeError, self, []).

(** The clean-up loop of lines 66-67. *)
Definition clean_up (disconnected : list string) (self : ConnectionManager)
    : ConnectionManager :=
  foldl (λ s client_id, disconnect client_id s) self disconnected.

(** Lines 52-67.  The clean-up runs only when the loop ends normally. *)
Definition broadcast (m : message) (exclude : option string)
    (env : list (option call)) (self : ConnectionManager)
    : outcome unit * ConnectionManager * list action :=
  match broadcast_loop m exclude (size (active_connections self))
          (map_to_list (active_connections self)).*1 env self with
  | (Return disconnected, self', log) =>
      (Return tt, clean_up disconnected self', log ++ (Disconnect <$> disconnected))
  | (Raise e, self', log) => (Raise e, self', log)
  end.

(** The loop of lines 76-87 over the members of the room, when nothing else
    touches the manager. *)
Fixpoint room_pass (self : ConnectionManager) (m : message) (exclude : option string)
    (members : list string) : list string * list action :=
  match members with
  | [] => ([], [])
  | client_id :: members' =>
      let '(disconnected, log) := room_pass self m exclude members' in
      if decide (exclude = Some client_id) then (disconnected, log)
      else match active_connections self !! client_id with
           | None => (client_id :: disconnected, log)
           | Some ws =>
               match send_json ws m with
               | Return _ => (disconnected, Sent client_id m :: log)
               | Raise _ => (client_id :: disconnected, Failed client_id m :: log)
               end
           end
  end.

(** The loop of lines 76-87 as it runs, over the set [self.rooms[room]]
    itself: each step of the set's iterator compares the size of the set
    with its size [used] when the loop began and raises [RuntimeError] if
    they differ.  A member that is not registered is collected without a
    send, so without a suspension. *)
Fixpoint room_loop (room : string) (m : message) (exclude : option string)
    (used : nat) (members : list string) (env : list (option call))
    (self : ConnectionManager)
    : outcome (list string) * ConnectionManager * list action :=
  if decide (size (default ∅ (rooms self !! room)) = used) then
    match members with
    | [] => (Return [], self, [])
    | client_id :: members' =>
        if decide (exclude = Some client_id)
        then room_loop room m exclude used members' env self
        else
          match active_connections self !! client_id with
          | None =>
              let '(r, self', log) := room_loop room m exclude used members' env self in
              (collect client_id r, self', log)
          | Some connection =>
              let '(r, self', log) :=
                room_loop room m exclude used members' (tail env)
                  (other_task (default None (head env)) self) in
              match send_json connection m with
              | Return _ => (r, self', Sent client_id m :: log)
              | Raise _ => (collect client_id r, self', Failed client_id m :: log)
              end
          end
    end
  else (Raise RuntimeError, self, []).

(** Lines 69-91: the clean-up loop only discards from [self.rooms[room]],
    and runs only when the loop ends normally. *)
Definition broadcast_to_room (room : string) (m : message) (exclude : option string)
    (env : list (option call)) (self : ConnectionManager)
    : outcome unit * ConnectionManager * list action :=
  match rooms self !! room with
  | None => (Return tt, self, [])
  | Some members =>
      match room_loop room m exclude (size members) (elements members) env self with
      | (Return disconnected, self', log) =>
          (Return tt,
           Manager (active_connections self')
             (foldl (λ rs client_id, alter (λ s, s ∖ {[client_id]}) room rs)
                    (rooms self') disconnected),
           log)
      | (Raise e, self', log) => (Raise e, self', log)
      end
  end.

(** The ids a log shows a send attempt for. *)
Definition attempts (log : list action) : list string :=
  omap (λ a, match a with
             | Sent c _ | Failed c _ => Some c
             | Disconnect _ => None
             end) log.

(** The ids a log shows a call of [disconnect] for. *)
Definition unregistered (log : list action) : list string :=
  omap (λ a, match a with Disconnect c => Some c | _ => None end) log.

(** One iteration of the loop of [broadcast_pass]: the skipped target, the
    send that returns, the send that raises. *)
Ltac pass_step f IH :=
  cbn [f]; destruct (f _ _ _) as [d l] eqn:Epass; cbn [fst snd] in IH;
  case_decide; [| destruct (send_json _ _) as [[]|e] eqn:Esend]; cbn [fst snd].

(** Whether a call registers [client_id] or makes it a member of a room. *)
Definition brings_in (client_id : string) (c : call) : bool :=
  match c with
  | Connects _ client_id' | Joins client_id' _ => bool_decide (client_id' = client_id)
  | Disconnects _ | Leaves _ _ => false
  end.

(** A client that is not registered and is in no room. *)
Definition absent (client_id : string) (self : ConnectionManager) : Prop :=
  active_connections self !! client_id = None
  ∧ ∀ room members, rooms self !! room = Some members → client_id ∉ members.

(** One step of [broadcast_loop]: the size test, the end of the keys, the
    skipped target, the key that is gone, the send. *)
Ltac loop_step IH env :=
  cbn [broadcast_loop]; case_decide as Hsize;
  [|cbn [fst snd]];
  [lazymatch goal with
   | |- context [match active_connections ?s !! ?c with _ => _ end] =>
       case_decide as Hex;
       [|destruct (active_connections s !! c) as [ws0|] eqn:Hreg;
         [specialize (IH (tail env) (other_task (default None (head env)) s));
          destruct (broadcast_loop _ _ _ _ (tail env) _) as [[r0 s0] l0] eqn:Eloop;
          destruct (send_json ws0 _) as [[]|e0] eqn:Esend|]];
       cbn [fst snd] in *
   | _ => cbn [fst snd]
   end|].

(** One step of [room_loop]. *)
Ltac room_loop_step IH env :=
  cbn [room_loop]; case_decide as Hsize;
  [|cbn [fst snd]];
  [lazymatch goal with
   | |- context [match active_connections ?s !! ?c with _ => _ end] =>
       case_decide as Hex;
       [|destruct (active_connections s !! c) as [ws0|] eqn:Hreg;
         [specialize (IH (tail env) (other_task (default None (head env)) s));
          destruct (room_loop _ _ _ _ _ (tail env) _) as [[r0 s0] l0] eqn:Eloop;
          destruct (send_json ws0 _) as [[]|e0] eqn:Esend
         |specialize (IH env s);
          destruct (room_loop _ _ _ _ _ env s) as [[r0 s0] l0] eqn:Eloop]];
       cbn [fst snd] in *
   | _ => cbn [fst snd]
   end|].

(** *** Concrete managers *)

Definition hello : message := Message [("type", "message")].

(** Two connections in the room ["lobby"]; sends to ["b"] raise. *)
Definition lobby : ConnectionManager :=
  join_room "b" "lobby" (join_room "a" "lobby"
    (connect (Socket 2 (Some WebSocketDisconnect)) "b"
      (connect (Socket 1 None) "a" new).2).2).

(** Five connections; sends to ["c"] raise. *)
Definition five : ConnectionManager :=
  (connect (Socket 5 None) "e" (connect (Socket 4 None) "d"
    (connect (Socket 3 (Some RuntimeError)) "c" (connect (Socket 2 None) "b"
      (connect (Socket 1 None) "a" new).2).2).2).2).2.

End Connections.

(* ===================================================================== *)
(** ** Further observers of the event stream *)
(* ===================================================================== *)

Module EventStreamAux.
Import EventStream.

(** The steps that take an id from the counter. *)
Definition issues_id (a : step) : bool :=
  match a with
  | Connected | Update _ _ => true
  | Replay _ | Heartbeat => false
  end.

(** Whether the first step of a schedule that takes an id is a connected
    event, as in every run: a generator reaches line 52 before line 64. *)
Definition connected_first (tr : list (nat * step)) : bool :=
  match filter (λ p, issues_id p.2) tr with
  | (_, Update _ _) :: _ => false
  | _ => true
  end.

(** The chunks of iteration [k] (from 0) of a loop that runs alone and
    started with the counter at [c]. *)
Definition iteration (c : Z) (k : nat) (t : string * Z) : list chunk :=
  let n := c + Z.of_nat k + 1 in
  [IdLine n; EventLine "update";
   DataLine (UpdateData (EventData t.1 t.2 ("Update #" +:+ pretty n)))]
  ++ (if decide (n `mod` 15 = 0) then [CommentLine "heartbeat"] else []).

End EventStreamAux.

(* ===================================================================== *)
(** ** WebSocket chat room endpoint *)
(* ===================================================================== *)

Module ChatRoom.
Import Connections.

(** The four dicts the endpoint sends (lines 260-265, 268-272, 278-284,
    292-296); numbers are written in decimal. *)
Definition joined_room_message (room client_id : string) (users_count : nat) : message :=
  Message [("type", "joined_room"); ("room", room); ("client_id", client_id);
           ("users_count", pretty users_count)].

Definition user_joined_message (client_id : string) (users_count : nat) : message :=
  Message [("type", "user_joined"); ("client_id", client_id);
           ("users_count", pretty users_count)].

Definition chat_message (client_id room content timestamp : string) : message :=
  Message [("type", "message"); ("client_id", client_id); ("room", room);
           ("content", content); ("timestamp", timestamp)].

Definition user_left_message (client_id : string) (users_count : nat) : message :=
  Message [("type", "user_left"); ("client_id", client_id);
           ("users_count", pretty users_count)].

(** Lines 255-272: registration, the welcome and the notice to the room.
    [client_id] is the uuid drawn by [connect] and [env] is what the other
    tasks do during the sends of the notice.  The welcome is inside the
    [try], and an exception it raises skips the notice. *)
Definition chat_enter (websocket : WebSocket) (room client_id : string)
    (env : list (option call)) (self : ConnectionManager)
    : outcome unit * ConnectionManager * list action :=
  let self1 := (connect websocket client_id self).2 in
  let self2 := join_room client_id room self1 in
  match send_personal_message
          (joined_room_message room client_id (get_room_count room self2))
          client_id self2 with
  | (Return _, self3, log1) =>
      let '(r, self4, log2) :=
        broadcast_to_room room
          (user_joined_message client_id (get_room_count room self3))
          (Some client_id) env self3 in
      (r, self4, log1 ++ log2)
  | (Raise e, self3, log1) => (Raise e, self3, log1)
  end.

(** Lines 275-284, one iteration of the loop for the received text [data]:
    the room broadcast has no exclusion. *)
Definition chat_receive (room client_id data timestamp : string)
    (env : list (option call)) (self : ConnectionManager)
    : outcome unit * ConnectionManager * list action :=
  broadcast_to_room room (chat_message client_id room data timestamp) None env self.

(** Lines 289-297, the [finally] block. *)
Definition chat_leave (room client_id : string)
    (env : list (option call)) (self : ConnectionManager)
    : outcome unit * ConnectionManager * list action :=
  let self1 := leave_room client_id room self in
  let self2 := disconnect client_id self1 in
  broadcast_to_room room (user_left_message client_id (get_room_count room self2))
    None env self2.

(** The loop of lines 274-284 over the texts received before the receive
    raises; each comes with the clock reading and with what the other tasks
    do during its broadcast.  An exception of a broadcast ends the loop. *)
Fixpoint chat_loop (room client_id : string)
    (frames : list (string * string * list (option call)))
    (self : ConnectionManager) : outcome unit * ConnectionManager * list action :=
  match frames with
  | [] => (Return tt, self, [])
  | (data, timestamp, env) :: frames' =>
      match chat_receive room client_id data timestamp env self with
      | (Return _, self1, log1) =>
          let '(r, self2, log2) := chat_loop room client_id frames' self1 in
          (r, self2, log1 ++ log2)
      | (Raise e, self1, log1) => (Raise e, self1, log1)
      end
  end.

(** Lines 252-297 for one client: [frames] are the texts it sends and
    [closing] is the exception [receive_text] ends the loop with; [entering]
    and [leaving] are what the other tasks do during the sends of the two
    notices.  [WebSocketDisconnect] is swallowed by the [except], anything
    else leaves the function after the [finally] block; an exception raised
    in the [finally] block leaves the function in its place. *)
Definition chat_room (websocket : WebSocket) (room client_id : string)
    (entering : list (option call))
    (frames : list (string * string * list (option call))) (closing : exn)
    (leaving : list (option call))
    (self : ConnectionManager) : outcome unit * ConnectionManager * list action :=
  let '(r, self1, log1) := chat_enter websocket room client_id entering self in
  let '(raised, self2, log2) :=
    match r with
    | Return _ =>
        match chat_loop room client_id frames self1 with
        | (Return _, s, l) => (closing, s, l)
        | (Raise e, s, l) => (e, s, l)
        end
    | Raise e => (e, self1, [])
    end in
  let '(r3, self3, log3) := chat_leave room client_id leaving self2 in
  (match r3 with
   | Raise e => Raise e
   | Return _ =>
       match raised with
       | WebSocketDisconnect => Return tt
       | e => Raise e
       end
   end, self3, log1 ++ log2 ++ log3).

(** One iteration of the loop of [room_pass]. *)
Ltac room_step IH :=
  cbn [room_pass]; destruct (room_pass _ _ _ _) as [d l] eqn:Epass;
  cbn [fst snd] in IH; case_decide;
  [| lazymatch goal with
     | |- context [match active_connections ?s !! ?c with _ => _ end] =>
         destruct (active_connections s !! c) as [ws0|] eqn:Ereg;
         [destruct (send_json ws0 _) as [[]|e] eqn:Esend|]
     end]; cbn [fst snd].

End ChatRoom.

(* ===================================================================== *)
(** ** REST resources, pagination and rate limiting *)
(* ===================================================================== *)

Module RestApi.

(** What a handler or dependency ends in: its return value, or the status
    and detail of the [HTTPException] it raises (422 with the detail
    ["validation"] stands for the framework rejecting a [Query] parameter
    outside its declared bounds). *)
Inductive response (A : Type) :=
| Ok (a : A)
| HTTPException (status_code : Z) (detail : string).
Arguments Ok {A} a.
Arguments HTTPException {A} status_code detail.

(** [User] (lines 41-47); a [UUID] is its canonical string, a [datetime] a
    clock reading. *)
Record User := MkUser {
  user_id : string;
  user_name : string;
  user_email : string;
  user_created_at : Z;
  user_updated_at : Z
}.

(** [UserCreate] and [UserUpdate] (lines 24-33), already validated. *)
Record UserBase := MkUserBase {
  base_name : string;
  base_email : string
}.

(** [Post] (lines 59-66). *)
Record Post := MkPost {
  post_id : string;
  post_user_id : string;
  post_title : string;
  post_content : string;
  post_created_at : Z;
  post_updated_at : Z
}.

(** [PostCreate] (lines 50-56), already validated. *)
Record PostBase := MkPostBase {
  base_title : string;
  base_content : string
}.

(** [PaginationMetadata] and the list responses (lines 69-83). *)
Record PaginationMetadata := MkPagination {
  total : nat;
  limit : Z;
  offset : Z;
  has_more : bool
}.

Record ListResponse (A : Type) := MkList {
  data : list A;
  pagination : PaginationMetadata
}.
Arguments MkList {A} data pagination.
Arguments data {A} _.
Arguments pagination {A} _.

(** *** A Python [dict] in insertion order *)

Abbreviation dict V := (list (string * V)).

Fixpoint dict_get {V} (k : string) (d : dict V) : option V :=
  match d with
  | [] => None
  | (k', v) :: d' => if decide (k' = k) then Some v else dict_get k d'
  end.

(** [d[k] = v]: an existing key keeps its place, a new key goes last. *)
Fixpoint dict_set {V} (k : string) (v : V) (d : dict V) : dict V :=
  match d with
  | [] => [(k, v)]
  | (k', v') :: d' =>
      if decide (k' = k) then (k, v) :: d' else (k', v') :: dict_set k v d'
  end.

(** [del d[k]]. *)
Definition dict_del {V} (k : string) (d : dict V) : dict V :=
  filter (λ p, p.1 ≠ k) d.

Definition dict_values {V} (d : dict V) : list V := d.*2.

(** The two in-memory tables (lines 102-103).  A handler is modelled by
    its body, on a request the framework has validated; the dependencies
    named in its signature run before it and are modelled on their own. *)
Record db := Db {
  users_db : dict User;
  posts_db : dict Post
}.

(** *** Dependencies *)

(** Lines 124-127. *)
Definition client_id_of (authorization : option string) : string :=
  match authorization with
  | Some a => if decide (a = "") then "anonymous" else a
  | None => "anonymous"
  end.

Section rate_limiter.
(** [time.time()] is a float; [in_window current_time req_time window_seconds]
    is the float test [current_time - req_time < window_seconds] of line 137. *)
Context {time : Type} (in_window : time → time → Z → bool).

(** Lines 123-148: the closure returned by [rate_limiter], run at the
    clock reading [current_time] on the shared [rate_limit_storage]. *)
Definition limiter (max_requests window_seconds : Z) (authorization : option string)
    (current_time : time) (rate_limit_storage : gmap string (list time))
    : response bool * gmap string (list time) :=
  let client_id := client_id_of authorization in
  let recorded := default [] (rate_limit_storage !! client_id) in
  let kept := filter (λ req_time, in_window current_time req_time window_seconds) recorded in
  if decide (max_requests ≤ Z.of_nat (length kept)) then
    (HTTPException 429 "Rate limit exceeded", <[client_id := kept]> rate_limit_storage)
  else
    (Ok true, <[client_id := kept ++ [current_time]]> rate_limit_storage).

(** One client calling the same limiter at the given clock readings. *)
Fixpoint requests (max_requests window_seconds : Z) (authorization : option string)
    (times : list time) (rate_limit_storage : gmap string (list time))
    : list (response bool) * gmap string (list time) :=
  match times with
  | [] => ([], rate_limit_storage)
  | t :: times' =>
      let '(r, s1) := limiter max_requests window_seconds authorization t rate_limit_storage in
      let '(rs, s2) := requests max_requests window_seconds authorization times' s1 in
      (r :: rs, s2)
  end.
End rate_limiter.

(** *** User endpoints *)

(** Lines 209-223. *)
Definition get_user (id : string) (st : db) : response User :=
  match dict_get id (users_db st) with
  | Some user => Ok user
  | None => HTTPException 404 "User not found"
  end.

(** Lines 233-256; [id] is the uuid drawn, [now] the clock reading. *)
Definition create_user (user_data : UserBase) (id : string) (now : Z) (st : db)
    : User * db :=
  let user := MkUser id (base_name user_data) (base_email user_data) now now in
  (user, Db (dict_set id user (users_db st)) (posts_db st)).

(** Lines 265-287: the stored object is changed in place. *)
Definition update_user (id : string) (user_data : UserBase) (now : Z) (st : db)
    : response User * db :=
  match dict_get id (users_db st) with
  | Some user =>
      let user' := MkUser (user_id user) (base_name user_data) (base_email user_data)
                     (user_created_at user) now in
      (Ok user', Db (dict_set id user' (users_db st)) (posts_db st))
  | None => (HTTPException 404 "User not found", st)
  end.

(** Lines 331-347. *)
Definition delete_user (id : string) (st : db) : response unit * db :=
  match dict_get id (users_db st) with
  | Some _ => (Ok tt, Db (dict_del id (users_db st)) (posts_db st))
  | None => (HTTPException 404 "User not found", st)
  end.

(** *** Post endpoints *)

(** The bounds of the [Query] parameters (lines 360-361). *)
Definition valid_page (limit offset : Z) : bool :=
  (1 <=? limit) && (limit <=? 100) && (0 <=? offset).

(** Lines 373-376. *)
Definition user_posts (id : string) (st : db) : list Post :=
  filter (λ post, post_user_id post = id) (dict_values (posts_db st)).

(** Lines 358-389. *)
Definition list_user_posts (id : string) (limit offset : Z) (st : db)
    : response (ListResponse Post) :=
  if valid_page limit offset then
    match dict_get id (users_db st) with
    | Some _ =>
        let total := length (user_posts id st) in
        let paginated_posts :=
          take (Z.to_nat limit) (drop (Z.to_nat offset) (user_posts id st)) in
        Ok (MkList paginated_posts
              (MkPagination total limit offset
                 (bool_decide (offset + limit < Z.of_nat total))))
    | None => HTTPException 404 "User not found"
    end
  else HTTPException 422 "validation".

(** Lines 399-427. *)
Definition create_post (user : string) (post_data : PostBase) (id : string) (now : Z)
    (st : db) : response Post * db :=
  match dict_get user (users_db st) with
  | Some _ =>
      let post := MkPost id user (base_title post_data) (base_content post_data) now now in
      (Ok post, Db (users_db st) (dict_set id post (posts_db st)))
  | None => (HTTPException 404 "User not found", st)
  end.

(** Lines 436-448. *)
Definition get_post (id : string) (st : db) : response Post :=
  match dict_get id (posts_db st) with
  | Some post => Ok post
  | None => HTTPException 404 "Post not found"
  end.

(** The posts a list response carries, none for an error. *)
Definition page_data (r : response (ListResponse Post)) : list Post :=
  match r with
  | Ok page => data page
  | HTTPException _ _ => []
  end.

(** *** Concrete tables and clocks *)

(** The float test of line 137 on integer clock readings. *)
Definition in_window_Z (current_time req_time window_seconds : Z) : bool :=
  bool_decide (current_time - req_time < window_seconds).

(** One user with two posts, as [startup_event] and one [create_post]
    leave the tables. *)
Definition sample_db : db :=
  (create_post "u1" (MkPostBase "Second" "More") "p2" 3
     (create_post "u1" (MkPostBase "Welcome Post" "Sample") "p1" 2
        (create_user (MkUserBase "John Doe" "john@example.com") "u1" 1
           (Db [] [])).2).2).2.

End RestApi.

(* ===================================================================== *)
(** ** Properties of the event stream *)
(* ===================================================================== *)

Module EventStreamSpec.
Import EventStream EventStreamAux.

Example py_int_examples :
  py_int "95" = Some 95 ∧ py_int " -1_0 " = Some (-10) ∧ py_int "+7" = Some 7 ∧
  py_int "abc" = None ∧ py_int "" = None ∧ py_int "1__0" = None ∧
  py_int "12_" = None ∧ py_int "- 3" = None ∧
  py_int (String (ascii_of_nat 28) "5") = None ∧
  py_int (String (ascii_of_nat 160) "5") = Some 5 ∧
  py_int (String.string_of_list_ascii (replicate 4300 "9"%char)) = Some (10 ^ 4300 - 1) ∧
  py_int (String.string_of_list_ascii (replicate 4301 "9"%char)) = None ∧
  py_int (String.string_of_list_ascii ("-"%char :: replicate 4301 "9"%char)) = None.
Proof. split_and!; vm_compute; reflexivity. Qed.

(** *** The invariant of the two globals *)

Lemma inv_initial : inv initial.
Proof. split; simpl; [constructor | constructor | lia | lia]. Qed.

Lemma ids_snoc h e : ids (h ++ [e]) = ids h ++ [id e].
Proof. unfold ids. by rewrite fmap_app. Qed.

Lemma ids_drop n h : ids (drop n h) = drop n (ids h).
Proof. unfold ids. by rewrite fmap_drop. Qed.

Lemma StronglySorted_drop {A} (R : relation A) n (l : list A) :
  StronglySorted R l → StronglySorted R (drop n l).
Proof.
  intros H. rewrite <- (take_drop n l) in H.
  by apply StronglySorted_app_1_r in H.
Qed.

Lemma inv_connected st : inv st → inv (connected st).1.
Proof.
  intros [Hs Hb Hl Hc]. split; simpl; try done; [|lia].
  eapply Forall_impl; [exact Hb|]. simpl. intros; lia.
Qed.

Lemma update_history now r st :
  let e := Event (event_id_counter st + 1) "update"
             (EventData now r ("Update #" +:+ pretty (event_id_counter st + 1))) in
  event_history (update now r st).1 =
    if decide (100 < length (event_history st ++ [e]))%nat
    then drop 1 (event_history st ++ [e]) else event_history st ++ [e].
Proof. reflexivity. Qed.

Lemma update_counter now r st :
  event_id_counter (update now r st).1 = event_id_counter st + 1.
Proof. reflexivity. Qed.

Lemma inv_update now r st : inv st → inv (update now r st).1.
Proof.
  intros [Hs Hb Hl Hc].
  set (e := Event (event_id_counter st + 1) "update"
             (EventData now r ("Update #" +:+ pretty (event_id_counter st + 1)))).
  assert (Hs' : StronglySorted Z.lt (ids (event_history st ++ [e]))).
  { rewrite ids_snoc. apply StronglySorted_app_2; [|done|repeat constructor].
    intros x1 x2 H1 ->%list_elem_of_singleton. simpl.
    rewrite Forall_forall in Hb. specialize (Hb _ H1). simpl in Hb. lia. }
  assert (Hb' : Forall (λ i, 1 ≤ i ≤ event_id_counter st + 1) (ids (event_history st ++ [e]))).
  { rewrite ids_snoc. apply Forall_app. split.
    - eapply Forall_impl; [exact Hb|]. simpl; intros; lia.
    - repeat constructor; simpl; lia. }
  split; rewrite ?update_history, ?update_counter; fold e; try lia.
  - case_decide; [rewrite ids_drop; by apply StronglySorted_drop | done].
  - case_decide; [rewrite ids_drop; by apply Forall_drop | done].
  - case_decide; [rewrite length_drop|]; rewrite length_app in *; simpl in *; lia.
Qed.

Lemma inv_exec a st : inv st → inv (exec a st).1.
Proof.
  intros H. destruct a; [done | by apply inv_connected | by apply inv_update | done].
Qed.

Lemma run_cons sid a tr st :
  (run ((sid, a) :: tr) st).1 = (run tr (exec a st).1).1.
Proof. cbn [run]. destruct (exec a st) as [st1 o1]. cbn [fst]. by destruct (run tr st1). Qed.

Lemma inv_run tr : ∀ st, inv st → inv (run tr st).1.
Proof.
  induction tr as [|[sid a] tr IH]; intros st H; [done|].
  rewrite run_cons. by apply IH, inv_exec.
Qed.


Lemma StronglySorted_sublist {A} (R : relation A) (l1 l2 : list A) :
  l1 `sublist_of` l2 → StronglySorted R l2 → StronglySorted R l1.
Proof.
  induction 1 as [|x l1 l2 Hsub IH|x l1 l2 Hsub IH]; intros H; [done| |].
  - apply StronglySorted_cons in H as [HF HS]. apply StronglySorted_cons.
    split; [|auto]. rewrite Forall_forall in *.
    intros y Hy. apply HF. by eapply elem_of_sublist.
  - apply StronglySorted_cons in H as [_ HS]. auto.
Qed.

Lemma last_drop_lt {A} (l : list A) n : (n < length l)%nat → last (drop n l) = last l.
Proof.
  intros H. rewrite <- (take_drop n l) at 2. rewrite last_app.
  destruct (last (drop n l)) eqn:E; [done|].
  apply last_None in E. apply (f_equal length) in E.
  rewrite length_drop in E. simpl in E. lia.
Qed.

Lemma update_last now r st :
  last (ids (event_history (update now r st).1)) = Some (event_id_counter st + 1).
Proof.
  rewrite update_history. cbv zeta. case_decide as Hlen.
  - rewrite ids_drop, last_drop_lt, ids_snoc, last_snoc; [done|].
    unfold ids. rewrite length_fmap. lia.
  - by rewrite ids_snoc, last_snoc.
Qed.

(** *** Retention: the log is the last hundred appended events *)

Lemma retained_short a : (length a ≤ 100)%nat → retained a = a.
Proof. intros H. unfold retained. by replace (length a - 100)%nat with 0%nat by lia. Qed.

Lemma retained_drop k (l r : list event) :
  (k ≤ length l - 100)%nat → retained (drop k l ++ r) = retained (l ++ r).
Proof.
  intros H. unfold retained.
  rewrite <- (drop_app_le l r k) by lia. rewrite drop_drop. f_equal.
  rewrite length_drop, !length_app. lia.
Qed.

Lemma size_exec a st :
  (length (event_history st) ≤ 100)%nat → (length (event_history (exec a st).1) ≤ 100)%nat.
Proof.
  intros H. destruct a; try done. cbn [exec]. rewrite update_history. cbv zeta.
  case_decide; [rewrite length_drop|]; rewrite length_app in *; simpl in *; lia.
Qed.

Lemma history_run tr : ∀ st,
  (length (event_history st) ≤ 100)%nat →
  event_history (run tr st).1 = retained (event_history st ++ appended tr st).
Proof.
  induction tr as [|[sid a] tr IH]; intros st H.
  - simpl. rewrite app_nil_r. by rewrite retained_short.
  - rewrite run_cons, IH by by apply size_exec.
    destruct a; try done. cbn [appended exec]. rewrite update_history. cbv zeta.
    rewrite update_counter.
    set (e := Event _ _ _). case_decide as Hlen.
    + rewrite retained_drop, <- app_assoc; [done|]. lia.
    + by rewrite <- app_assoc.
Qed.

Lemma live_run sid (ticks : list (string * Z)) : ∀ st,
  (live ticks st).1 = (run (ticks ≫= λ t, [(sid, Update t.1 t.2); (sid, Heartbeat)]) st).1.
Proof.
  induction ticks as [|[now r] ticks IH]; intros st; [done|].
  rewrite bind_cons. cbn [app]. rewrite !run_cons. cbn [live exec fst snd].
  rewrite <- IH. destruct (update now r st) as [st1 o1]. cbn [fst].
  by destruct (live ticks st1).
Qed.

Lemma event_generator_run sid c ticks st :
  (event_generator c ticks st).1 = (run (session sid c ticks) st).1.
Proof.
  unfold session. rewrite !run_cons. cbn [exec fst]. rewrite <- live_run.
  unfold event_generator. destruct (connected st) as [st1 o1]. cbn [fst].
  by destruct (live ticks st1).
Qed.

Lemma appended_live sid (ticks : list (string * Z)) : ∀ st,
  ids (appended (ticks ≫= λ t, [(sid, Update t.1 t.2); (sid, Heartbeat)]) st)
  = seqZ (event_id_counter st + 1) (Z.of_nat (length ticks)).
Proof.
  induction ticks as [|[now r] ticks IH]; intros st; [done|].
  rewrite bind_cons. cbn [app appended exec fst snd ids fmap list_fmap id].
  fold (ids (appended (ticks ≫= λ t, [(sid, Update t.1 t.2); (sid, Heartbeat)])
                      (update now r st).1)).
  rewrite IH, update_counter.
  rewrite (seqZ_cons (event_id_counter st + 1)) by (simpl; lia).
  do 2 f_equal; simpl; lia.
Qed.

Lemma appended_session sid c ticks st :
  ids (appended (session sid c ticks) st) = seqZ (event_id_counter st + 2) (Z.of_nat (length ticks)).
Proof.
  unfold session. cbn [appended exec fst]. rewrite appended_live.
  simpl. f_equal. lia.
Qed.

Lemma missed_events_all h c : Forall (λ i, c < i) (ids h) → missed_events h c = h.
Proof.
  unfold missed_events. induction h as [|e h IH]; [done|].
  intros [H1 H2]%Forall_cons. rewrite filter_cons_True by done. by rewrite IH.
Qed.

Lemma missed_events_seqZ h : ∀ lo (k : nat),
  ids h = seqZ lo (Z.of_nat (length h)) → (k ≤ length h)%nat →
  missed_events h (lo + Z.of_nat k - 1) = drop k h.
Proof.
  induction h as [|e h IH]; intros lo k Hids Hk.
  - by rewrite drop_nil.
  - destruct k as [|k].
    + rewrite drop_0. apply missed_events_all. rewrite Hids.
      apply Forall_seqZ. intros; lia.
    + rewrite (seqZ_cons lo) in Hids by (simpl; lia).
      cbn [ids fmap list_fmap] in Hids. injection Hids as Hid Hids.
      unfold missed_events. rewrite filter_cons_False by lia.
      cbn [drop]. replace (lo + Z.of_nat (S k) - 1) with (Z.succ lo + Z.of_nat k - 1) by lia.
      apply IH; [|simpl in Hk; lia].
      unfold ids. rewrite Hids. f_equal. simpl. lia.
Qed.

Lemma id_lines_live (ticks : list (string * Z)) : ∀ st,
  id_lines (live ticks st).2 = seqZ (event_id_counter st + 1) (Z.of_nat (length ticks)).
Proof.
  induction ticks as [|[now r] ticks IH]; intros st; [done|].
  cbn [live]. specialize (IH (update now r st).1).
  destruct (update now r st) as [st1 o1] eqn:E.
  assert (o1 = [IdLine (event_id_counter st + 1); EventLine "update";
                DataLine (UpdateData (EventData now r ("Update #" +:+ pretty (event_id_counter st + 1))))]
          ∧ event_id_counter st1 = event_id_counter st + 1) as [-> Hc].
  { unfold update in E. by injection E as <- <-. }
  cbn [fst] in IH. destruct (live ticks st1) as [st2 o3]. cbn [snd] in *.
  unfold id_lines in *. rewrite !omap_app, IH, Hc.
  replace (omap _ (heartbeat st1)) with (@nil Z)
    by (unfold heartbeat; by case_decide).
  rewrite (seqZ_cons (event_id_counter st + 1)) by (simpl; lia).
  simpl. do 2 f_equal; lia.
Qed.

(** *** The ids taken from the counter *)

Lemma counter_exec_mono a st : event_id_counter st ≤ event_id_counter (exec a st).1.
Proof. destruct a; cbn; lia. Qed.

Lemma counter_run_mono tr : ∀ st, event_id_counter st ≤ event_id_counter (run tr st).1.
Proof.
  induction tr as [|[sid a] tr IH]; intros st; [done|].
  rewrite run_cons. pose proof (counter_exec_mono a st). specialize (IH (exec a st).1). lia.
Qed.

Lemma appended_ids_above tr : ∀ st,
  Forall (λ e, event_id_counter st < id e) (appended tr st).
Proof.
  induction tr as [|[sid a] tr IH]; intros st; [constructor|].
  pose proof (counter_exec_mono a st) as Hmono.
  assert (Hrest : Forall (λ e, event_id_counter st < id e) (appended tr (exec a st).1)).
  { eapply Forall_impl; [apply IH|]. cbn beta. intros; lia. }
  destruct a; cbn [appended]; try done.
  constructor; [cbn; lia|done].
Qed.

(** Every id between the counter before and the counter after a schedule
    went to exactly one append or connected event. *)
Lemma issued_ids tr : ∀ st,
  ids (appended tr st) ++ connected_ids tr st
  ≡ₚ seqZ (event_id_counter st + 1)
          (event_id_counter (run tr st).1 - event_id_counter st).
Proof.
  induction tr as [|[sid a] tr IH]; intros st.
  { cbn. by rewrite Z.sub_diag. }
  rewrite run_cons. specialize (IH (exec a st).1).
  pose proof (counter_run_mono tr (exec a st).1) as Hmono.
  destruct a; cbn [appended connected_ids exec fst snd app] in *; try done.
  - change (id_lines (connected st).2) with [event_id_counter st + 1].
    cbn [connected fst event_id_counter app] in *.
    rewrite <- Permutation_middle, IH.
    rewrite (seqZ_cons (event_id_counter st + 1)) by lia.
    constructor.
    match goal with |- ?a ≡ₚ ?b => assert (a = b) as -> by (f_equal; lia) end.
    done.
  - rewrite update_counter in *. cbn [ids fmap list_fmap id app].
    fold (ids (appended tr (update now r st).1)).
    rewrite IH. rewrite (seqZ_cons (event_id_counter st + 1)) by lia.
    constructor.
    match goal with |- ?a ≡ₚ ?b => assert (a = b) as -> by (f_equal; lia) end.
    done.
Qed.

(** When the first step that takes an id is a connected event, every
    appended id is at least two above the counter the schedule started
    with. *)
Lemma connected_first_ids tr : ∀ st,
  connected_first tr = true →
  Forall (λ e, event_id_counter st + 2 ≤ id e) (appended tr st).
Proof.
  induction tr as [|[sid a] tr IH]; intros st Hf; [constructor|].
  unfold connected_first in Hf. rewrite filter_cons in Hf. cbn [snd] in Hf.
  destruct a; cbn [issues_id] in Hf.
  - rewrite decide_False in Hf by (intros []). by apply IH.
  - cbn [appended exec fst].
    eapply Forall_impl; [apply appended_ids_above|].
    cbn [connected fst event_id_counter]. intros e He. cbn beta in *. lia.
  - by rewrite decide_True in Hf.
  - rewrite decide_False in Hf by (intros []). by apply IH.
Qed.


(** *** The claims on the event log and the stream session *)

(** C1, as the code has it.  After any schedule of session steps from the
    initial globals, an append stores its event under the id
    [event_id_counter + 1]: the new id is the last of the log, it is larger
    than every id stored before, the stored ids are strictly increasing and
    at least 1, and right after the append the counter is the largest stored
    id, so that an append directly following it takes the id the
    specification names (largest stored id plus one).  A connected event
    takes the id [event_id_counter + 1] from the same counter, yields it and
    stores nothing.  Every id from 1 to the counter went to exactly one
    append or one connected event, the log is the last hundred appended
    events, and no id of a connected event is stored: an id missing between
    two stored ones was taken by a connected event, and the ids below the
    oldest stored one were evicted or taken by connected events.  When the
    first step that takes an id is a connected event, as in every run, the
    stored ids are at least 2. *)
Theorem append_assigns_counter_successor tr now r :
  let st := (run tr initial).1 in
  let st' := (update now r st).1 in
  let c := event_id_counter st in
  last (ids (event_history st')) = Some (c + 1)
  ∧ Forall (λ i, i < c + 1) (ids (event_history st))
  ∧ StronglySorted Z.lt (ids (event_history st'))
  ∧ Forall (λ i, 1 ≤ i) (ids (event_history st'))
  ∧ event_id_counter st' = c + 1
  ∧ (∀ now' r', last (ids (event_history (update now' r' st').1))
                = Some (spec_next_id (event_history st')))
  ∧ connected st
    = (Store (event_history st) (c + 1),
       [IdLine (c + 1); EventLine "connected";
        DataLine (ConnectedNotice "Connected to SSE stream")])
  ∧ ids (appended tr initial) ++ connected_ids tr initial ≡ₚ seqZ 1 c
  ∧ event_history st = retained (appended tr initial)
  ∧ Forall (λ i, i ∉ ids (event_history st')) (connected_ids tr initial)
  ∧ (connected_first tr = true → Forall (λ i, 2 ≤ i) (ids (event_history st))).
Proof.
  intros st st' c.
  assert (Hinv : inv st) by apply inv_run, inv_initial.
  assert (Hinv' : inv st') by by apply inv_update.
  assert (Hperm : ids (appended tr initial) ++ connected_ids tr initial ≡ₚ seqZ 1 c).
  { rewrite issued_ids. cbn [initial event_id_counter]. unfold c, st.
    by rewrite Z.sub_0_r. }
  assert (Hhist : event_history st = retained (appended tr initial)).
  { unfold st. by rewrite history_run by (simpl; lia). }
  assert (Hst' : ∀ i, i ∈ ids (event_history st') →
                      i ∈ ids (appended tr initial) ∨ i = c + 1).
  { intros i Hi. unfold st' in Hi. rewrite update_history in Hi. cbv zeta in Hi.
    assert (Hi' : i ∈ ids (event_history st
               ++ [Event (c + 1) "update"
                     (EventData now r ("Update #" +:+ pretty (c + 1)))])).
    { case_decide; [|done]. rewrite ids_drop in Hi.
      eapply elem_of_sublist; [exact Hi|apply sublist_drop]. }
    rewrite ids_snoc in Hi'. apply elem_of_app in Hi' as [Hi'|Hi'].
    - left. rewrite Hhist in Hi'. unfold retained in Hi'. rewrite ids_drop in Hi'.
      eapply elem_of_sublist; [exact Hi'|apply sublist_drop].
    - right. by apply list_elem_of_singleton in Hi'. }
  split_and!.
  - apply update_last.
  - eapply Forall_impl; [apply (inv_bound _ Hinv)|]. simpl. intros; lia.
  - apply (inv_sorted _ Hinv').
  - eapply Forall_impl; [apply (inv_bound _ Hinv')|]. simpl. intros; lia.
  - done.
  - intros now' r'. rewrite update_last.
    unfold spec_next_id, st'. by rewrite update_last.
  - done.
  - exact Hperm.
  - exact Hhist.
  - apply Forall_forall. intros i Hi Hin.
    assert (Hnd : NoDup (ids (appended tr initial) ++ connected_ids tr initial))
      by (rewrite Hperm; apply NoDup_seqZ).
    apply NoDup_app in Hnd as (_ & Hdisj & _).
    destruct (Hst' i Hin) as [Happ| ->]; [by apply (Hdisj i)|].
    assert (Hle : c + 1 ∈ seqZ 1 c)
      by (rewrite <- Hperm; apply elem_of_app; by right).
    apply elem_of_seqZ in Hle. lia.
  - intros Hfirst. apply Forall_forall. intros i Hi.
    rewrite Hhist in Hi. unfold retained in Hi. rewrite ids_drop in Hi.
    assert (Happ : i ∈ ids (appended tr initial))
      by (eapply elem_of_sublist; [exact Hi|apply sublist_drop]).
    pose proof (connected_first_ids tr initial Hfirst) as Hall.
    unfold ids in Happ. apply list_elem_of_fmap in Happ as (e & -> & He).
    rewrite Forall_forall in Hall. specialize (Hall e He). simpl in Hall. lia.
Qed.

(** C1 at one session of two ticks: the connected event took the id 1, so
    the log holds the ids 2 and 3. *)
Lemma append_assigns_counter_successor_one_session :
  Forall (λ i, 2 ≤ i)
    (ids (event_history
       (run (session 0 None [("t"%string, 1); ("t"%string, 2)]) initial).1)).
Proof.
  pose proof (append_assigns_counter_successor
                (session 0 None [("t"%string, 1); ("t"%string, 2)]) "t" 3)
    as (_ & _ & _ & _ & _ & _ & _ & _ & _ & _ & H).
  apply H. reflexivity.
Defined.

(** C1 fails as stated: on a fresh process a session emits its connected
    event (id 1) before its first append, so the first event stored in the
    empty log has id 2, where the specification names 1. *)
Lemma first_append_is_not_one :
  let st := (event_generator None [] initial).1 in
  event_history st = [] ∧
  ids (event_history (update "t" 1 st).1) = [2] ∧
  last (ids (event_history (update "t" 1 st).1)) ≠ Some (spec_next_id (event_history st)).
Proof. split_and!; [reflexivity | reflexivity | discriminate]. Qed.

(** C3, as the code has it.  After any schedule the log holds at most 100
    events, namely the last 100 of the events appended so far, in order of
    appending; an append onto a full log drops exactly the oldest entry; and
    a single session on a fresh process that has appended 150 events has a
    log whose [missed_events] for cursor 0 are 100 events with the ids
    52 to 151. *)
Theorem log_retains_last_hundred tr (ticks : list (string * Z)) :
  length ticks = 150%nat →
  let st := (run tr initial).1 in
  (length (event_history st) ≤ 100)%nat
  ∧ event_history st = retained (appended tr initial)
  ∧ (∀ now r,
       let c := event_id_counter st + 1 in
       let e := Event c "update" (EventData now r ("Update #" +:+ pretty c)) in
       event_history (update now r st).1 =
         if decide (length (event_history st) = 100%nat)
         then drop 1 (event_history st ++ [e]) else event_history st ++ [e])
  ∧ ids (missed_events (event_history (event_generator None ticks initial).1) 0)
    = seqZ 52 100.
Proof.
  intros Hlen st.
  assert (Hinv : inv st) by apply inv_run, inv_initial.
  split_and!.
  - apply (inv_size _ Hinv).
  - unfold st. by rewrite history_run by (simpl; lia).
  - intros now r. rewrite update_history. cbv zeta.
    pose proof (inv_size _ Hinv). rewrite length_app. simpl.
    repeat case_decide; try done; lia.
  - rewrite (event_generator_run 0).
    assert (Hinv' : inv (run (session 0 None ticks) initial).1)
      by apply inv_run, inv_initial.
    rewrite missed_events_all.
    2:{ eapply Forall_impl; [apply (inv_bound _ Hinv')|]. simpl. intros; lia. }
    rewrite history_run by (simpl; lia). cbn [event_history initial app].
    unfold retained. rewrite ids_drop.
    replace (length (appended (session 0 None ticks) initial))
      with (length (ids (appended (session 0 None ticks) initial)))
      by (unfold ids; apply length_fmap).
    rewrite appended_session, length_seqZ, Hlen. reflexivity.
Qed.

(** C3 at one session of 150 ticks. *)
Lemma log_retains_last_hundred_solo :
  let tr := session 0 None (replicate 150 ("t"%string, 1)) in
  let st := (run tr initial).1 in
  (length (event_history st) ≤ 100)%nat
  ∧ event_history st = retained (appended tr initial)
  ∧ (∀ now r,
       let c := event_id_counter st + 1 in
       let e := Event c "update" (EventData now r ("Update #" +:+ pretty c)) in
       event_history (update now r st).1 =
         if decide (length (event_history st) = 100%nat)
         then drop 1 (event_history st ++ [e]) else event_history st ++ [e])
  ∧ ids (missed_events
           (event_history (event_generator None (replicate 150 ("t"%string, 1)) initial).1) 0)
    = seqZ 52 100.
Proof.
  exact (log_retains_last_hundred
           (session 0 None (replicate 150 ("t"%string, 1)))
           (replicate 150 ("t"%string, 1)) eq_refl).
Defined.

(** C3 fails as stated: after 150 appends by one session on a fresh process
    the lowest surviving id is 52, not 150 - 100 + 1 = 51, and the replay
    from cursor 0 has the ids 52 to 151. *)
Lemma scenario_B_lowest_is_52 :
  let st := (event_generator None (replicate 150 ("t"%string, 1)) initial).1 in
  length (appended (session 0 None (replicate 150 ("t"%string, 1))) initial) = 150%nat ∧
  ids (missed_events (event_history st) 0) = seqZ 52 100 ∧
  head (ids (event_history st)) ≠ Some (150 - 100 + 1).
Proof. vm_compute. split_and!; [reflexivity | reflexivity | discriminate]. Qed.




(** C7, as the code has it.  After any schedule that leaves the log with
    the consecutive ids [lo] to 100, [lo] at most 96, a session opened with
    the cursor ["95"] yields the stored events 96 to 100 in order, then the
    connected event under the id [event_id_counter + 1], and then its own
    updates under the ids from [event_id_counter + 2] on.  The counter is at
    least 100, so the connected event has an id of at least 101 and the
    first generated update one of at least 102.  When the first step that
    takes an id is a connected event, as in every run, [lo] is at least 2: a
    log that holds the id 1 does not arise. *)
Theorem resumed_session_yields tr lo (ticks : list (string * Z)) :
  let st := (run tr initial).1 in
  ids (event_history st) = seqZ lo (101 - lo) →
  lo ≤ 96 →
  let out := (event_generator (Some "95") ticks st).2 in
  let c := event_id_counter st in
  let replayed := drop (Z.to_nat (96 - lo)) (event_history st) in
  out = (replayed ≫= replay_chunks)
        ++ [IdLine (c + 1); EventLine "connected";
            DataLine (ConnectedNotice "Connected to SSE stream")]
        ++ (live ticks (connected st).1).2
  ∧ ids replayed = [96; 97; 98; 99; 100]
  ∧ id_lines (live ticks (connected st).1).2 = seqZ (c + 2) (Z.of_nat (length ticks))
  ∧ id_lines out = [96; 97; 98; 99; 100] ++ (c + 1) :: seqZ (c + 2) (Z.of_nat (length ticks))
  ∧ 100 ≤ c
  ∧ (connected_first tr = true → 2 ≤ lo).
Proof.
  intros st Hids Hlo out c replayed.
  assert (Hinv : inv st) by apply inv_run, inv_initial.
  assert (Hlen : length (event_history st) = Z.to_nat (101 - lo)).
  { rewrite <- (length_fmap id). fold (ids (event_history st)).
    by rewrite Hids, length_seqZ. }
  assert (Hmissed : missed_events (event_history st) 95 = replayed).
  { replace 95 with (lo + Z.of_nat (Z.to_nat (96 - lo)) - 1) by lia.
    apply missed_events_seqZ; [|lia].
    rewrite Hids, Hlen. f_equal. lia. }
  assert (Hdrop : ids replayed = [96; 97; 98; 99; 100]).
  { unfold replayed. rewrite ids_drop, Hids.
    replace (101 - lo) with ((96 - lo) + 5) by lia.
    rewrite seqZ_app by lia.
    rewrite drop_app_length' by (rewrite length_seqZ; lia).
    by replace (lo + (96 - lo)) with 96 by lia. }
  assert (Hlive : id_lines (live ticks (connected st).1).2
                  = seqZ (c + 2) (Z.of_nat (length ticks))).
  { rewrite id_lines_live. cbn [connected fst event_id_counter]. f_equal. lia. }
  assert (Hout : out = (replayed ≫= replay_chunks)
        ++ [IdLine (c + 1); EventLine "connected";
            DataLine (ConnectedNotice "Connected to SSE stream")]
        ++ (live ticks (connected st).1).2).
  { unfold out, event_generator. cbn [connected fst].
    destruct (live ticks _) as [st2 o2]. cbn [snd].
    unfold replay. rewrite decide_False by done.
    change (py_int "95") with (Some 95). cbv beta iota. by rewrite Hmissed. }
  assert (Hhead : lo ∈ ids (event_history st) ∧ 100 ∈ ids (event_history st)).
  { rewrite Hids. split; apply elem_of_seqZ; lia. }
  destruct Hhead as [Hhead H100].
  split_and!; [exact Hout | exact Hdrop | exact Hlive | | |].
  - rewrite Hout. unfold id_lines at 1. rewrite !omap_app.
    fold (id_lines (live ticks (connected st).1).2). rewrite Hlive.
    f_equal. revert Hdrop. generalize replayed.
    intros l Hl. by destruct l as [|e1 [|e2 [|e3 [|e4 [|e5 [|e6 l]]]]]].
  - pose proof (inv_bound _ Hinv) as Hb. rewrite Forall_forall in Hb.
    apply (Hb 100 H100).
  - intros Hfirst.
    pose proof (connected_first_ids tr initial Hfirst) as Hall.
    assert (Hhist : event_history st = retained (appended tr initial)).
    { unfold st. by rewrite history_run by (simpl; lia). }
    rewrite Hhist in Hhead. unfold retained in Hhead. rewrite ids_drop in Hhead.
    assert (Happ : lo ∈ ids (appended tr initial))
      by (eapply elem_of_sublist; [exact Hhead|apply sublist_drop]).
    unfold ids in Happ. apply list_elem_of_fmap in Happ as (e & -> & He).
    rewrite Forall_forall in Hall. specialize (Hall e He). simpl in Hall. lia.
Qed.

(** C7 after one session of 99 iterations on a fresh process (the log holds
    the ids 2 to 100, the counter is at 100), with two ticks. *)
Lemma resumed_session_yields_after_99 :
  id_lines (event_generator (Some "95") [("t"%string, 1); ("t"%string, 2)]
              (run (session 0 None (replicate 99 ("t"%string, 1))) initial).1).2
  = [96; 97; 98; 99; 100; 101; 102; 103].
Proof.
  pose proof (resumed_session_yields (session 0 None (replicate 99 ("t"%string, 1))) 2
                [("t"%string, 1); ("t"%string, 2)] eq_refl ltac:(lia))
    as (_ & _ & _ & H & _).
  exact H.
Defined.

(** C7 fails as stated: after one session of 99 iterations the log ends at
    100 and the counter is at 100; the connected event of the next session
    takes the id 101, so the first generated update has the id 102 and no
    generated update has the id 101. *)
Lemma live_ids_start_at_102 :
  log_2_100 = (run (session 0 None (replicate 99 ("t"%string, 1))) initial).1 ∧
  ids (event_history log_2_100) = seqZ 2 99 ∧
  event_id_counter log_2_100 = 100 ∧
  id_lines (event_generator (Some "95") [("t"%string, 1)] log_2_100).2
    = [96; 97; 98; 99; 100; 101; 102] ∧
  event_ids "connected" (event_generator (Some "95") [("t"%string, 1)] log_2_100).2 = [101] ∧
  ¬ (∃ rest, event_ids "update" (live [("t"%string, 1)] (connected log_2_100).1).2
             = 101 :: rest).
Proof.
  split_and!; [by vm_compute | by vm_compute | by vm_compute | by vm_compute
              | by vm_compute |].
  intros [rest H]. vm_compute in H. discriminate.
Qed.

(** C9 does not hold of the code.  With three sessions whose loops run in
    turn, session 0 generates 45 periodic events and receives no keep-alive
    frame at all, while session 2 receives one after every fifth of its 45
    events: the test of line 88 is on the counter shared by all sessions
    and their connected events, not on the session's own events. *)
Theorem keep_alive_follows_shared_counter :
  let out := (run (three_sessions 45) initial).2 in
  length (event_ids "update" (output_of 0 out)) = 45%nat
  ∧ filter is_comment (output_of 0 out) = []
  ∧ length (event_ids "update" (output_of 2 out)) = 45%nat
  ∧ length (filter is_comment (output_of 2 out)) = 9%nat.
Proof. vm_compute. done. Qed.

(** C10.  A cursor string on which [int] raises [ValueError] gives an empty
    replay and leaves the globals alone, and the session then runs exactly
    as one opened without a cursor: its first three chunks are the connected
    event under the id [event_id_counter + 1], followed by the output of the
    live loop. *)
Theorem unparsable_cursor_skips_replay s (ticks : list (string * Z)) st :
  py_int s = None →
  let c := event_id_counter st in
  replay (Some s) st = []
  ∧ exec (Replay (Some s)) st = (st, [])
  ∧ event_generator (Some s) ticks st = event_generator None ticks st
  ∧ (event_generator (Some s) ticks st).2
    = [IdLine (c + 1); EventLine "connected";
       DataLine (ConnectedNotice "Connected to SSE stream")]
      ++ (live ticks (Store (event_history st) (c + 1))).2
  ∧ (event_generator (Some s) ticks st).1
    = (live ticks (Store (event_history st) (c + 1))).1
  ∧ id_lines (event_generator (Some s) ticks st).2
    = seqZ (c + 1) (Z.of_nat (S (length ticks))).
Proof.
  intros Hs c.
  assert (Hr : replay (Some s) st = []).
  { unfold replay. case_decide; [done|]. by rewrite Hs. }
  assert (Hout : (event_generator (Some s) ticks st).2
    = [IdLine (c + 1); EventLine "connected";
       DataLine (ConnectedNotice "Connected to SSE stream")]
      ++ (live ticks (Store (event_history st) (c + 1))).2
    ∧ (event_generator (Some s) ticks st).1
      = (live ticks (Store (event_history st) (c + 1))).1).
  { unfold event_generator. rewrite Hr. cbn [connected]. fold c.
    by destruct (live ticks _). }
  destruct Hout as [Hout Hst].
  split_and!; [done | by cbn [exec]; rewrite Hr | | done | done |].
  - unfold event_generator. by rewrite Hr.
  - rewrite Hout. unfold id_lines. rewrite omap_app.
    fold (id_lines (live ticks (Store (event_history st) (c + 1))).2).
    rewrite id_lines_live. cbn [omap event_id_counter app].
    rewrite (seqZ_cons (c + 1)) by lia. do 2 f_equal; lia.
Qed.

(** C10 at the cursor ["abc"], after one session of 99 iterations. *)
Lemma unparsable_cursor_abc :
  replay (Some "abc") log_2_100 = []
  ∧ (event_generator (Some "abc") [("t"%string, 1)] log_2_100).2
    = [IdLine 101; EventLine "connected";
       DataLine (ConnectedNotice "Connected to SSE stream")]
      ++ (live [("t"%string, 1)] (Store (event_history log_2_100) 101)).2.
Proof.
  pose proof (unparsable_cursor_skips_replay "abc" [("t"%string, 1)] log_2_100 eq_refl)
    as (H1 & _ & _ & H2 & _).
  split; [exact H1 | exact H2].
Defined.

End EventStreamSpec.

(* ===================================================================== *)
(** ** Properties of the connection manager *)
(* ===================================================================== *)

Module ConnectionsSpec.
Import Connections.

Section pass.
Context (m : message) (exclude : option string).

Lemma broadcast_pass_attempts items :
  attempts (broadcast_pass m exclude items).2
  = filter (λ c, exclude ≠ Some c) items.*1.
Proof.
  induction items as [|[c ws] items IH]; [done|].
  cbn [fmap list_fmap fst]. rewrite filter_cons.
  pass_step broadcast_pass IH.
  - by rewrite decide_False by naive_solver.
  - rewrite decide_True by done. cbn. by f_equal.
  - rewrite decide_True by done. cbn. by f_equal.
Qed.

Lemma broadcast_pass_unregistered items :
  unregistered (broadcast_pass m exclude items).2 = [].
Proof.
  induction items as [|[c ws] items IH]; [done|].
  pass_step broadcast_pass IH; done.
Qed.

Lemma broadcast_pass_sublist items :
  (broadcast_pass m exclude items).1 `sublist_of` items.*1.
Proof.
  induction items as [|[c ws] items IH]; [done|].
  cbn [fmap list_fmap fst].
  pass_step broadcast_pass IH; by constructor.
Qed.

Lemma broadcast_pass_dead items c :
  c ∈ (broadcast_pass m exclude items).1 ↔
  ∃ ws e, (c, ws) ∈ items ∧ exclude ≠ Some c ∧ send_json ws m = Raise e.
Proof.
  induction items as [|[c' ws'] items IH].
  - simpl. split; [by intros ?%elem_of_nil|]. by intros (?&?&?%elem_of_nil&_).
  - pass_step broadcast_pass IH; rewrite ?elem_of_cons, IH; split.
    + intros (ws&e&?&?&?). exists ws, e. rewrite elem_of_cons. auto.
    + intros (ws&e&[[= -> ->]|?]%elem_of_cons&?&?); [done|eauto].
    + intros (ws&e&?&?&?). exists ws, e. rewrite elem_of_cons. auto.
    + intros (ws&e&[[= -> ->]|?]%elem_of_cons&?&?); [congruence|eauto].
    + intros [->|(ws&e'&?&?&?)].
      * exists ws', e. rewrite elem_of_cons. auto.
      * exists ws, e'. rewrite elem_of_cons. auto.
    + intros (ws&e'&[[= -> ->]|?]%elem_of_cons&?&?); [by left|right; eauto].
Qed.

Lemma broadcast_pass_sent items c :
  Sent c m ∈ (broadcast_pass m exclude items).2 ↔
  ∃ ws, (c, ws) ∈ items ∧ exclude ≠ Some c ∧ send_json ws m = Return tt.
Proof.
  induction items as [|[c' ws'] items IH].
  - simpl. split; [by intros ?%elem_of_nil|]. by intros (?&?%elem_of_nil&_).
  - pass_step broadcast_pass IH; rewrite ?elem_of_cons, IH; split.
    + intros (ws&?&?&?). exists ws. rewrite elem_of_cons. auto.
    + intros (ws&[[= -> ->]|?]%elem_of_cons&?&?); [done|eauto].
    + intros [[= ->]|(ws&?&?&?)].
      * exists ws'. rewrite elem_of_cons. auto.
      * exists ws. rewrite elem_of_cons. auto.
    + intros (ws&[[= -> ->]|?]%elem_of_cons&?&?); [by left|right; eauto].
    + intros [[=]|(ws&?&?&?)]. exists ws. rewrite elem_of_cons. auto.
    + intros (ws&[[= -> ->]|?]%elem_of_cons&?&?); [congruence|right; eauto].
Qed.
End pass.


Lemma disconnect_lookup c c' self :
  active_connections (disconnect c self) !! c' =
  if decide (c' = c) then None else active_connections self !! c'.
Proof.
  unfold disconnect. cbn [active_connections]. case_decide as Hin.
  - rewrite lookup_delete. repeat case_decide; congruence.
  - case_decide; [subst|done]. by apply eq_None_not_Some.
Qed.

Lemma clean_up_lookup disconnected : ∀ self c,
  active_connections (clean_up disconnected self) !! c =
  if decide (c ∈ disconnected) then None else active_connections self !! c.
Proof.
  unfold clean_up.
  induction disconnected as [|d disconnected IH]; intros self c; cbn [foldl].
  - rewrite decide_False; [done|]. apply not_elem_of_nil.
  - rewrite IH, disconnect_lookup.
    destruct (decide (c ∈ disconnected)) as [Hin|Hin].
    + rewrite decide_True; [done|]. by right.
    + destruct (decide (c = d)) as [->|Hne].
      * rewrite decide_True; [done|]. by left.
      * rewrite decide_False; [done|]. by intros [?|?]%elem_of_cons.
Qed.

Lemma attempts_app l1 l2 : attempts (l1 ++ l2) = attempts l1 ++ attempts l2.
Proof. apply omap_app. Qed.

Lemma attempts_Disconnect cs : attempts (Disconnect <$> cs) = [].
Proof. induction cs; [done|]. done. Qed.

Lemma unregistered_app l1 l2 : unregistered (l1 ++ l2) = unregistered l1 ++ unregistered l2.
Proof. apply omap_app. Qed.

Lemma unregistered_Disconnect cs : unregistered (Disconnect <$> cs) = cs.
Proof. induction cs as [|c cs IH]; [done|]. cbn. by f_equal. Qed.

(** *** A broadcast that runs alone *)

Lemma broadcast_loop_alone m exclude self items :
  (∀ c ws, (c, ws) ∈ items → active_connections self !! c = Some ws) →
  broadcast_loop m exclude (size (active_connections self)) items.*1 [] self
  = (Return (broadcast_pass m exclude items).1, self, (broadcast_pass m exclude items).2).
Proof.
  induction items as [|[c ws] items IH]; intros Hitems;
    cbn [fmap list_fmap fst broadcast_loop broadcast_pass].
  - by rewrite decide_True.
  - rewrite decide_True by done.
    rewrite (Hitems c ws) by (by left).
    cbn [tail head default other_task].
    change (list_fmap (string * WebSocket)%type string fst items) with (items.*1).
    rewrite IH by (intros; apply Hitems; by right).
    destruct (broadcast_pass m exclude items) as [d l]. cbn [fst snd].
    case_decide; [done|]. by destruct (send_json ws m) as [[]|e].
Qed.

Lemma broadcast_unfold m exclude self :
  broadcast m exclude [] self =
  let p := broadcast_pass m exclude (map_to_list (active_connections self)) in
  (Return tt, clean_up p.1 self, p.2 ++ (Disconnect <$> p.1)).
Proof.
  unfold broadcast. rewrite broadcast_loop_alone; [done|].
  intros c ws. apply elem_of_map_to_list.
Qed.

Lemma broadcast_attempts m exclude self c :
  c ∈ attempts (broadcast m exclude [] self).2 ↔
  is_Some (active_connections self !! c) ∧ exclude ≠ Some c.
Proof.
  rewrite broadcast_unfold. cbn [snd].
  rewrite attempts_app, attempts_Disconnect, app_nil_r, broadcast_pass_attempts.
  rewrite list_elem_of_filter, list_elem_of_fmap. split.
  - intros [? ([c' ws]&->&Hin)]. split; [|done].
    exists ws. by apply elem_of_map_to_list.
  - intros [[ws Hws] ?]. split; [done|]. exists (c, ws).
    split; [done|]. by apply elem_of_map_to_list.
Qed.

Lemma broadcast_sent m self c ws :
  active_connections self !! c = Some ws → send_json ws m = Return tt →
  Sent c m ∈ (broadcast m None [] self).2.
Proof.
  intros Hws Hsend. rewrite broadcast_unfold. cbn [snd].
  apply elem_of_app. left. apply broadcast_pass_sent.
  exists ws. split; [by apply elem_of_map_to_list|done].
Qed.

Lemma clean_up_rooms disconnected : ∀ self,
  rooms (clean_up disconnected self) =
  (λ s, s ∖ list_to_set disconnected) <$> rooms self.
Proof.
  unfold clean_up.
  induction disconnected as [|d disconnected IH]; intros self; cbn [foldl].
  - rewrite <- (map_fmap_id (rooms self)) at 1. apply map_fmap_ext.
    intros room s _. cbn. apply set_eq. intros x.
    rewrite elem_of_difference, elem_of_empty. tauto.
  - rewrite IH. cbn [disconnect rooms]. rewrite <- map_fmap_compose.
    apply map_fmap_ext. intros room s _. cbn. apply set_eq. intros x.
    rewrite !elem_of_difference, elem_of_union, elem_of_singleton. tauto.
Qed.

(** *** A broadcast among other tasks *)

Lemma others_step n env self :
  others (take n (tail env)) (other_task (default None (head env)) self)
  = others (take (if env is [] then 0 else S n) env) self.
Proof. destruct env as [|o env]; cbn [tail head default]; [by rewrite !take_nil|done]. Qed.

Section loop.
Context (m : message) (exclude : option string) (used : nat).

Lemma broadcast_loop_state keys : ∀ env self,
  ∃ n, (broadcast_loop m exclude used keys env self).1.2 = others (take n env) self.
Proof.
  induction keys as [|c keys IH]; intros env self.
  - loop_step IH env; by exists 0%nat.
  - loop_step IH env; try by exists 0%nat.
    + apply IH.
    + destruct IH as [n ->]. rewrite others_step. by eexists.
    + destruct IH as [n ->]. rewrite others_step. by eexists.
Qed.

Lemma broadcast_loop_attempts keys : ∀ env self,
  attempts (broadcast_loop m exclude used keys env self).2
  `sublist_of` filter (λ c, exclude ≠ Some c) keys.
Proof.
  induction keys as [|c keys IH]; intros env self.
  - loop_step IH env; done.
  - rewrite filter_cons. loop_step IH env.
    + rewrite decide_False by (by intros ?). apply IH.
    + rewrite decide_True by done. by constructor.
    + rewrite decide_True by done. by constructor.
    + apply sublist_nil_l.
    + apply sublist_nil_l.
Qed.

Lemma broadcast_loop_unregistered keys : ∀ env self,
  unregistered (broadcast_loop m exclude used keys env self).2 = [].
Proof.
  induction keys as [|c keys IH]; intros env self; loop_step IH env; done.
Qed.

Lemma broadcast_loop_raises keys e : ∀ env self,
  (broadcast_loop m exclude used keys env self).1.1 = Raise e → e = RuntimeError.
Proof.
  induction keys as [|c keys IH]; intros env self; loop_step IH env;
    try done; try congruence.
  - apply IH.
  - destruct r0; [done|]. cbn. intros [= <-]. by apply IH.
Qed.

Lemma broadcast_loop_size_changed keys env self :
  size (active_connections self) ≠ used →
  broadcast_loop m exclude used keys env self = (Raise RuntimeError, self, []).
Proof. intros H. destruct keys; cbn [broadcast_loop]; by rewrite decide_False. Qed.
End loop.

(** A change of the registry's size during the first send ends the loop at
    the next step of the iterator. *)
Lemma broadcast_loop_interrupted m exclude o env keys : ∀ self,
  (∀ c, c ∈ keys → is_Some (active_connections self !! c)) →
  (∃ c, c ∈ keys ∧ exclude ≠ Some c) →
  size (active_connections (other_task o self)) ≠ size (active_connections self) →
  let r := broadcast_loop m exclude (size (active_connections self)) keys (o :: env) self in
  r.1.1 = Raise RuntimeError ∧ r.1.2 = other_task o self
  ∧ length (attempts r.2) = 1%nat ∧ unregistered r.2 = [].
Proof.
  induction keys as [|c keys IH]; intros self Hkeys (c0 & Hin & Hc0) Hsize.
  { by apply elem_of_nil in Hin. }
  cbv zeta. cbn [broadcast_loop]. rewrite decide_True by done.
  case_decide as Hex.
  - apply IH; [intros; apply Hkeys; by right| |done].
    exists c0. split; [|done].
    apply elem_of_cons in Hin as [->|Hin]; [done|done].
  - destruct (Hkeys c) as [ws Hws]; [by left|]. rewrite Hws.
    cbn [tail head default].
    rewrite broadcast_loop_size_changed by done.
    by destruct (send_json ws m) as [[]|e].
Qed.

Lemma broadcast_interrupted m exclude o env self :
  (∃ c, is_Some (active_connections self !! c) ∧ exclude ≠ Some c) →
  size (active_connections (other_task o self)) ≠ size (active_connections self) →
  let r := broadcast m exclude (o :: env) self in
  r.1.1 = Raise RuntimeError ∧ r.1.2 = other_task o self
  ∧ length (attempts r.2) = 1%nat ∧ unregistered r.2 = [].
Proof.
  intros (c & [ws Hc] & Hex) Hsize. cbv zeta. unfold broadcast.
  destruct (broadcast_loop_interrupted m exclude o env
              (map_to_list (active_connections self)).*1 self) as (H1 & H2 & H3 & H4).
  - intros c' ([c'' ws'] & -> & Hin)%list_elem_of_fmap.
    apply elem_of_map_to_list in Hin. by eexists.
  - exists c. split; [|done]. apply list_elem_of_fmap. exists (c, ws).
    split; [done|]. by apply elem_of_map_to_list.
  - done.
  - destruct (broadcast_loop _ _ _ _ _ _) as [[r s] l]. cbn [fst snd] in *.
    by subst r.
Qed.

Lemma broadcast_attempts_sublist m exclude env self :
  attempts (broadcast m exclude env self).2
  `sublist_of` filter (λ c, exclude ≠ Some c) (map_to_list (active_connections self)).*1.
Proof.
  unfold broadcast.
  pose proof (broadcast_loop_attempts m exclude (size (active_connections self))
                (map_to_list (active_connections self)).*1 env self) as H.
  destruct (broadcast_loop _ _ _ _ _ _) as [[[d|e] s] l]; cbn [fst snd] in *; [|done].
  by rewrite attempts_app, attempts_Disconnect, app_nil_r.
Qed.

(** A call that leaves the size of the registry leaves its keys. *)
Lemma other_task_same_keys o self c :
  size (active_connections (other_task o self)) = size (active_connections self) →
  is_Some (active_connections self !! c) →
  is_Some (active_connections (other_task o self) !! c).
Proof.
  destruct o as [[ws c'|c'|c' room|c' room]|]; cbn [other_task]; try done.
  - cbn. intros _ Hc. destruct (decide (c = c')) as [->|Hne].
    + rewrite lookup_insert_eq. by eexists.
    + by rewrite lookup_insert_ne.
  - unfold disconnect. cbn [active_connections]. case_decide as Hreg; [|done].
    rewrite map_size_delete_Some by done.
    pose proof (map_size_ne_0_lookup_2 _ _ Hreg). lia.
Qed.

(** The loop raises only when it finds the size of the registry changed. *)
Lemma broadcast_loop_raises_size m exclude used keys e : ∀ env self,
  (∀ c, c ∈ keys → is_Some (active_connections self !! c)) →
  (broadcast_loop m exclude used keys env self).1.1 = Raise e →
  size (active_connections (broadcast_loop m exclude used keys env self).1.2) ≠ used.
Proof.
  induction keys as [|c keys IH]; intros env self Hkeys.
  - cbn [broadcast_loop]. by case_decide.
  - cbn [broadcast_loop]. case_decide as Hsize; [|done].
    case_decide as Hex; [apply IH; intros; apply Hkeys; by right|].
    destruct (Hkeys c) as [ws Hws]; [by left|]. rewrite Hws.
    set (self1 := other_task (default None (head env)) self).
    destruct (decide (size (active_connections self1) = used)) as [Hsame|Hdiff].
    + specialize (IH (tail env) self1).
      destruct (broadcast_loop m exclude used keys (tail env) self1) as [[r s] l].
      cbn [fst snd] in IH.
      assert (Hr : r = Raise e → size (active_connections s) ≠ used).
      { apply IH. intros c' Hc'. apply other_task_same_keys; [by rewrite Hsize|].
        apply Hkeys. by right. }
      destruct (send_json ws m) as [[]|e']; cbn [fst snd]; [done|].
      destruct r; [done|]. done.
    + rewrite broadcast_loop_size_changed by done.
      by destruct (send_json ws m) as [[]|e'].
Qed.

(** A broadcast that raises has skipped its clean-up: it leaves the manager
    as the other tasks made it, with a registry of another size than at the
    call (with at most one call of another task per send, the only error of
    the iterator is the one on a changed size). *)
Lemma broadcast_raises m exclude env self e :
  (broadcast m exclude env self).1.1 = Raise e →
  e = RuntimeError
  ∧ unregistered (broadcast m exclude env self).2 = []
  ∧ size (active_connections (broadcast m exclude env self).1.2)
    ≠ size (active_connections self)
  ∧ ∃ n, (broadcast m exclude env self).1.2 = others (take n env) self.
Proof.
  unfold broadcast.
  pose proof (broadcast_loop_raises_size m exclude (size (active_connections self))
                (map_to_list (active_connections self)).*1 e env self) as H4.
  pose proof (broadcast_loop_raises m exclude (size (active_connections self))
                (map_to_list (active_connections self)).*1 e env self) as H1.
  pose proof (broadcast_loop_unregistered m exclude (size (active_connections self))
                (map_to_list (active_connections self)).*1 env self) as H2.
  pose proof (broadcast_loop_state m exclude (size (active_connections self))
                (map_to_list (active_connections self)).*1 env self) as H3.
  destruct (broadcast_loop _ _ _ _ _ _) as [[[d|e'] s] l]; cbn [fst snd] in *; [done|].
  intros [= ->]. split_and!; [auto|done| |done].
  apply H4; [|done].
  intros c ([c' ws] & -> & Hin)%list_elem_of_fmap.
  apply elem_of_map_to_list in Hin. by eexists.
Qed.

Section room_loop.
Context (room : string) (m : message) (exclude : option string) (used : nat).

Lemma room_loop_state members : ∀ env self,
  ∃ n, (room_loop room m exclude used members env self).1.2 = others (take n env) self.
Proof.
  induction members as [|c members IH]; intros env self.
  - room_loop_step IH env; by exists 0%nat.
  - room_loop_step IH env; try by exists 0%nat.
    + apply IH.
    + destruct IH as [n ->]. rewrite others_step. by eexists.
    + destruct IH as [n ->]. rewrite others_step. by eexists.
    + done.
Qed.

Lemma room_loop_attempts members : ∀ env self,
  attempts (room_loop room m exclude used members env self).2
  `sublist_of` filter (λ c, exclude ≠ Some c) members.
Proof.
  induction members as [|c members IH]; intros env self.
  - room_loop_step IH env; done.
  - rewrite filter_cons. room_loop_step IH env.
    + rewrite decide_False by (by intros ?). apply IH.
    + rewrite decide_True by done. by constructor.
    + rewrite decide_True by done. by constructor.
    + rewrite decide_True by done. by constructor.
    + apply sublist_nil_l.
Qed.

Lemma room_loop_unregistered members : ∀ env self,
  unregistered (room_loop room m exclude used members env self).2 = [].
Proof.
  induction members as [|c members IH]; intros env self; room_loop_step IH env; done.
Qed.

Lemma room_loop_raises members e : ∀ env self,
  (room_loop room m exclude used members env self).1.1 = Raise e → e = RuntimeError.
Proof.
  induction members as [|c members IH]; intros env self; room_loop_step IH env;
    try done; try congruence.
  - apply IH.
  - destruct r0; [done|]. cbn. intros [= <-]. by apply IH.
  - destruct r0; [done|]. cbn. intros [= <-]. by apply IH.
Qed.
End room_loop.

(** A room broadcast leaves the registry as the other tasks made it. *)
Lemma broadcast_to_room_registry_others room m exclude env self :
  ∃ n, active_connections (broadcast_to_room room m exclude env self).1.2
       = active_connections (others (take n env) self).
Proof.
  unfold broadcast_to_room.
  destruct (rooms self !! room) as [members|]; [|by exists 0%nat].
  destruct (room_loop_state room m exclude (size members) (elements members) env self)
    as [n Hn].
  exists n. by destruct (room_loop _ _ _ _ _ _ _) as [[[d|e] s] l]; cbn [fst snd] in *; subst.
Qed.

(** *** The claims on the broadcaster *)

(** C4 does not hold of the code.  When no other task calls the manager
    while the broadcast is suspended in a send, the broadcast does what the
    claim says: it returns normally; its log is the sends of the pass
    followed by the calls of [disconnect]; the pass attempts a send to every
    registered id other than [exclude], once each; the ids collected are
    exactly those whose send raised, each once, and [disconnect] is called
    for them only after the last send; every other target whose transport
    works has the message sent to it; afterwards exactly the collected ids
    are gone from the registry and from every room.  But the loop iterates
    the registry itself: when another task changes its size during the
    first send (a client connects or disconnects), the broadcast raises
    [RuntimeError] after that one attempt and calls [disconnect] for nobody.
    Whenever a broadcast raises, the exception is [RuntimeError], the
    clean-up has not run and the manager is as the other tasks left it.
    With five connections of which ["c"] fails, and a sixth client that
    connects during the last of the five sends, all five sends are attempted
    and the broadcast then raises: the failing ["c"] is still registered. *)
Theorem broadcast_stops_on_registry_change :
  (∀ m exclude self,
     let self' := (broadcast m exclude [] self).1.2 in
     ∃ disconnected sends,
       (broadcast m exclude [] self).1.1 = Return tt ∧
       (broadcast m exclude [] self).2 = sends ++ (Disconnect <$> disconnected) ∧
       unregistered sends = [] ∧
       NoDup (attempts sends) ∧
       NoDup disconnected ∧
       (∀ c, c ∈ attempts sends ↔
             is_Some (active_connections self !! c) ∧ exclude ≠ Some c) ∧
       (∀ c, c ∈ disconnected ↔
             ∃ ws e, active_connections self !! c = Some ws ∧ exclude ≠ Some c ∧
                     send_json ws m = Raise e) ∧
       (∀ c ws, active_connections self !! c = Some ws → exclude ≠ Some c →
                send_json ws m = Return tt → Sent c m ∈ sends) ∧
       (∀ c, active_connections self' !! c =
             if decide (c ∈ disconnected) then None else active_connections self !! c) ∧
       (∀ room, rooms self' !! room =
                (λ s, s ∖ list_to_set disconnected) <$> rooms self !! room))
  ∧ (∀ m exclude o env self,
       (∃ c, is_Some (active_connections self !! c) ∧ exclude ≠ Some c) →
       size (active_connections (other_task o self)) ≠ size (active_connections self) →
       let r := broadcast m exclude (o :: env) self in
       r.1.1 = Raise RuntimeError ∧ r.1.2 = other_task o self
       ∧ length (attempts r.2) = 1%nat ∧ unregistered r.2 = [])
  ∧ (∀ m exclude env self e,
       (broadcast m exclude env self).1.1 = Raise e →
       e = RuntimeError
       ∧ unregistered (broadcast m exclude env self).2 = []
       ∧ ∃ n, (broadcast m exclude env self).1.2 = others (take n env) self)
  ∧ (let r := broadcast hello None
                [None; None; None; None; Some (Connects (Socket 6 None) "f")] five in
     r.1.1 = Raise RuntimeError
     ∧ length (attempts r.2) = 5%nat
     ∧ Failed "c" hello ∈ r.2
     ∧ unregistered r.2 = []
     ∧ active_connections r.1.2 !! "c" = Some (Socket 3 (Some RuntimeError))).
Proof.
  split_and!.
  - intros m exclude self self'. subst self'. rewrite broadcast_unfold.
    cbv zeta. cbn [fst snd].
    set (items := map_to_list (active_connections self)).
    exists (broadcast_pass m exclude items).1, (broadcast_pass m exclude items).2.
    split_and!; try done.
    + apply broadcast_pass_unregistered.
    + rewrite broadcast_pass_attempts. apply NoDup_filter. unfold items.
      apply NoDup_fst_map_to_list.
    + eapply sublist_NoDup; [|apply broadcast_pass_sublist]. unfold items.
      apply NoDup_fst_map_to_list.
    + intros c. rewrite broadcast_pass_attempts, list_elem_of_filter, list_elem_of_fmap.
      split.
      * intros [? ([c' ws]&->&Hin)]. split; [|done].
        exists ws. by apply elem_of_map_to_list.
      * intros [[ws Hws] ?]. split; [done|]. exists (c, ws).
        split; [done|]. by apply elem_of_map_to_list.
    + intros c. rewrite broadcast_pass_dead. unfold items.
      by setoid_rewrite elem_of_map_to_list.
    + intros c ws Hws Hex Hsend. apply broadcast_pass_sent.
      exists ws. split; [by apply elem_of_map_to_list|done].
    + intros c. apply clean_up_lookup.
    + intros room. by rewrite clean_up_rooms, lookup_fmap.
  - intros m exclude o env self. apply broadcast_interrupted.
  - intros m exclude env self e He.
    destruct (broadcast_raises m exclude env self e He) as (H1 & H2 & _ & H3). done.
  - split_and!; [by vm_compute..| |by vm_compute|by vm_compute].
    apply list_elem_of_In. vm_compute. tauto.
Qed.

(** C4's interrupted pass at the five connections: a sixth client connects
    during the first send. *)
Lemma broadcast_stops_on_registry_change_five :
  let r := broadcast hello None [Some (Connects (Socket 6 None) "f")] five in
  r.1.1 = Raise RuntimeError ∧ r.1.2 = (connect (Socket 6 None) "f" five).2
  ∧ length (attempts r.2) = 1%nat ∧ unregistered r.2 = [].
Proof.
  destruct broadcast_stops_on_registry_change as (_ & H & _).
  apply (H hello None (Some (Connects (Socket 6 None) "f")) [] five).
  - exists "a". split; [by eexists|done].
  - vm_compute. lia.
Defined.

(** C6 does not hold of the code.  Under any interference a broadcast with
    [exclude = x] makes no send attempt to [x].  When no other task calls
    the manager while the broadcast is suspended, a broadcast without
    exclusion makes an attempt to every registered id, the sender's own
    included, and the message is sent to each whose transport works.  But
    when another task changes the size of the registry during the first
    send, the broadcast raises [RuntimeError] after that one attempt: with
    two or more connections registered some connection present at call
    time gets no attempt; with the five connections and a sixth client
    connecting, four of them. *)
Theorem broadcast_misses_targets_on_registry_change :
  (∀ m env self x, x ∉ attempts (broadcast m (Some x) env self).2)
  ∧ (∀ m self c ws, active_connections self !! c = Some ws →
       c ∈ attempts (broadcast m None [] self).2 ∧
       (send_json ws m = Return tt → Sent c m ∈ (broadcast m None [] self).2))
  ∧ (∀ m o env self,
       (1 < size (active_connections self))%nat →
       size (active_connections (other_task o self)) ≠ size (active_connections self) →
       (broadcast m None (o :: env) self).1.1 = Raise RuntimeError
       ∧ ∃ c, is_Some (active_connections self !! c)
              ∧ c ∉ attempts (broadcast m None (o :: env) self).2)
  ∧ (let r := broadcast hello None [Some (Connects (Socket 6 None) "f")] five in
     size (active_connections five) = 5%nat
     ∧ r.1.1 = Raise RuntimeError
     ∧ length (attempts r.2) = 1%nat
     ∧ length (filter (λ c, c ∉ attempts r.2)
                 (map_to_list (active_connections five)).*1) = 4%nat).
Proof.
  split_and!.
  - intros m env self x Hx.
    pose proof (broadcast_attempts_sublist m (Some x) env self) as Hsub.
    eapply elem_of_sublist in Hsub; [|exact Hx].
    by apply list_elem_of_filter in Hsub as [? _].
  - intros m self c ws Hws. split.
    + apply broadcast_attempts. by split; [exists ws|].
    + intros Hsend. by eapply broadcast_sent.
  - intros m o env self Hsz Hchg.
    assert (Hkeys : ∃ c1 c2 keys, (map_to_list (active_connections self)).*1
                                  = c1 :: c2 :: keys).
    { rewrite <- (length_map_to_list (active_connections self)) in Hsz.
      rewrite <- (length_fmap fst) in Hsz.
      destruct ((map_to_list (active_connections self)).*1) as [|c1 [|c2 keys]];
        cbn in Hsz; try lia. eauto. }
    destruct Hkeys as (c1 & c2 & keys & Hkeys).
    assert (Hreg : ∀ c, c ∈ [c1; c2] → is_Some (active_connections self !! c)).
    { intros c Hc.
      assert (Hin : c ∈ (map_to_list (active_connections self)).*1).
      { rewrite Hkeys. apply elem_of_cons in Hc as [->|Hc]; [by left|].
        apply list_elem_of_singleton in Hc as ->. right. by left. }
      apply list_elem_of_fmap in Hin as ([c' ws] & -> & Hin).
      apply elem_of_map_to_list in Hin. by eexists. }
    assert (Hne : c1 ≠ c2).
    { pose proof (NoDup_fst_map_to_list (active_connections self)) as Hnd.
      rewrite Hkeys in Hnd. apply NoDup_cons in Hnd as [Hnot _].
      intros ->. apply Hnot. by left. }
    destruct (broadcast_interrupted m None o env self) as (H1 & _ & H3 & _);
      [exists c1; split; [apply Hreg; by left|done] | done |].
    split; [exact H1|].
    destruct (attempts (broadcast m None (o :: env) self).2) as [|a [|a' l]] eqn:Ha;
      cbn in H3; try lia.
    destruct (decide (a = c1)) as [->|Hac].
    + exists c2. split; [apply Hreg; right; by left|].
      intros ->%list_elem_of_singleton. done.
    + exists c1. split; [apply Hreg; by left|].
      intros ->%list_elem_of_singleton. done.
  - vm_compute. split_and!; reflexivity.
Qed.

(** C6's missed targets at the five connections: a sixth client connects
    during the first send. *)
Lemma broadcast_misses_targets_on_registry_change_five :
  (broadcast hello None [Some (Connects (Socket 6 None) "f")] five).1.1
    = Raise RuntimeError
  ∧ ∃ c, is_Some (active_connections five !! c)
         ∧ c ∉ attempts
                 (broadcast hello None [Some (Connects (Socket 6 None) "f")] five).2.
Proof.
  destruct broadcast_misses_targets_on_registry_change as (_ & _ & H & _).
  apply (H hello (Some (Connects (Socket 6 None) "f")) [] five).
  - vm_compute. lia.
  - vm_compute. lia.
Defined.

(** C2 does not hold of the code.  A room broadcast never changes the
    registry: afterwards the registry is as the other tasks left it, and
    unchanged when there are none.  In the room ["lobby"] with the members
    ["a"] and ["b"], where the send to ["b"] raises, ["b"] is discarded from
    the room but is still registered after the pass; the global broadcast on
    the same manager does unregister it. *)
Theorem broadcast_to_room_leaves_dead_registered :
  let self' := (broadcast_to_room "lobby" hello None [] lobby).1.2 in
  (∀ room m exclude self,
     active_connections (broadcast_to_room room m exclude [] self).1.2
     = active_connections self) ∧
  (∀ room m exclude env self,
     ∃ n, active_connections (broadcast_to_room room m exclude env self).1.2
          = active_connections (others (take n env) self)) ∧
  (broadcast_to_room "lobby" hello None [] lobby).1.1 = Return tt ∧
  (broadcast_to_room "lobby" hello None [] lobby).2 = [Sent "a" hello; Failed "b" hello] ∧
  active_connections self' !! "b" = Some (Socket 2 (Some WebSocketDisconnect)) ∧
  elements <$> rooms self' !! "lobby" = Some ["a"] ∧
  active_connections (broadcast hello None [] lobby).1.2 !! "b" = None.
Proof.
  split_and!; [| |by vm_compute..].
  - intros room m exclude self.
    destruct (broadcast_to_room_registry_others room m exclude [] self) as [n ->].
    by rewrite take_nil.
  - intros room m exclude env self. apply broadcast_to_room_registry_others.
Qed.

(** C8, as the code has it.  A personal send whose transport raises lets
    that exception reach the caller, and leaves the manager (registry and
    rooms) exactly as it was. *)
Theorem send_personal_message_failure m c self ws e :
  active_connections self !! c = Some ws →
  send_json ws m = Raise e →
  send_personal_message m c self = (Raise e, self, [Failed c m]).
Proof. intros Hws Hsend. unfold send_personal_message. by rewrite Hws, Hsend. Qed.

(** C8 at the failing connection ["b"]. *)
Lemma send_personal_message_failure_lobby :
  send_personal_message hello "b" lobby
  = (Raise WebSocketDisconnect, lobby, [Failed "b" hello]).
Proof.
  apply (send_personal_message_failure hello "b" lobby
           (Socket 2 (Some WebSocketDisconnect)) WebSocketDisconnect);
    reflexivity.
Defined.

(** C8 fails as stated: the personal send to the failing connection ["b"]
    raises [WebSocketDisconnect]; it does not return a result. *)
Lemma send_personal_message_raises :
  (send_personal_message hello "b" lobby).1.1 = Raise WebSocketDisconnect ∧
  ¬ (∃ r : unit, (send_personal_message hello "b" lobby).1.1 = Return r).
Proof. split; [reflexivity|]. intros [r Hr]. vm_compute in Hr. discriminate. Qed.

End ConnectionsSpec.

(* ===================================================================== *)
(** ** Further properties of the event stream *)
(* ===================================================================== *)

Module EventStreamExtra.
Import EventStream EventStreamSpec EventStreamAux.

Lemma StronglySorted_seqZ m (n : nat) : StronglySorted Z.lt (seqZ m (Z.of_nat n)).
Proof.
  induction n as [|n IH]; [constructor|].
  rewrite seqZ_S. apply StronglySorted_app_2; [|done|repeat constructor].
  intros x y Hx ->%list_elem_of_singleton. apply elem_of_seqZ in Hx. lia.
Qed.

Lemma id_lines_replay_chunks l : id_lines (l ≫= replay_chunks) = ids l.
Proof.
  induction l as [|e l IH]; [done|].
  rewrite bind_cons. unfold id_lines in *. rewrite omap_app, IH. done.
Qed.

Lemma run_cons_out sid a tr st :
  (run ((sid, a) :: tr) st).2
  = ((λ c, (sid, c)) <$> (exec a st).2) ++ (run tr (exec a st).1).2.
Proof. cbn [run]. destruct (exec a st) as [st1 o1]. cbn [fst snd]. by destruct (run tr st1). Qed.

Lemma missed_events_all_events h c :
  Forall (λ e, c < id e) h → missed_events h c = h.
Proof.
  unfold missed_events. induction h as [|e h IH]; [done|].
  intros [H1 H2]%Forall_cons. rewrite filter_cons_True by done. by rewrite IH.
Qed.

Lemma missed_events_none h c :
  Forall (λ e, id e ≤ c) h → missed_events h c = [].
Proof.
  unfold missed_events. induction h as [|e h IH]; [done|].
  intros [H1 H2]%Forall_cons. rewrite filter_cons_False by lia. by apply IH.
Qed.

Lemma exec_silent a st : issues_id a = false → (exec a st).1 = st.
Proof. by destruct a. Qed.

(** X12.  Replay and heartbeat steps leave the globals alone, and the
    connected and update frames of a schedule, whatever sessions they belong
    to, carry the consecutive ids counter + 1, counter + 2, ...: no id is
    given to two frames. *)
Theorem ids_are_issued_once tr st :
  let tr' := filter (λ p, issues_id p.2) tr in
  (run tr st).1 = (run tr' st).1
  ∧ id_lines (snd <$> (run tr' st).2)
    = seqZ (event_id_counter st + 1) (Z.of_nat (length tr'))
  ∧ event_id_counter (run tr st).1 = event_id_counter st + Z.of_nat (length tr').
Proof.
  revert st. induction tr as [|[sid a] tr IH]; intros st.
  { cbn. split_and!; [done|done|lia]. }
  cbv zeta. rewrite filter_cons. cbn [snd].
  destruct (issues_id a) eqn:Ha.
  - rewrite decide_True by done. rewrite !run_cons.
    destruct (IH (exec a st).1) as (IH1 & IH2 & IH3).
    assert (Hc : event_id_counter (exec a st).1 = event_id_counter st + 1
                 ∧ id_lines (exec a st).2 = [event_id_counter st + 1]).
    { by destruct a. }
    destruct Hc as [Hc Hid]. split_and!.
    + done.
    + rewrite run_cons_out, fmap_app. unfold id_lines in *. rewrite omap_app, IH2.
      rewrite <- list_fmap_compose.
      replace (snd ∘ (λ c : chunk, (sid, c))) with (@Datatypes.id chunk) by done.
      rewrite list_fmap_id, Hid, Hc. cbn [length app].
      rewrite (seqZ_cons (event_id_counter st + 1)) by lia.
      do 2 f_equal; lia.
    + rewrite IH3, Hc. cbn [length]. lia.
  - rewrite decide_False by (intros []). rewrite run_cons.
    rewrite exec_silent by done. apply IH.
Qed.

(** X13.  In a session that runs on the globals left by any schedule, with
    any cursor, the ids of the yielded frames are strictly increasing: the
    replayed ids, then the connected event, then the updates. *)
Theorem session_ids_increase tr cursor (ticks : list (string * Z)) :
  StronglySorted Z.lt (id_lines (event_generator cursor ticks (run tr initial).1).2).
Proof.
  set (st := (run tr initial).1).
  assert (Hinv : inv st) by apply inv_run, inv_initial.
  assert (Hout : (event_generator cursor ticks st).2
                 = replay cursor st ++ (connected st).2 ++ (live ticks (connected st).1).2).
  { unfold event_generator. destruct (connected st) as [st1 o1]. cbn [fst snd].
    by destruct (live ticks st1). }
  rewrite Hout. unfold id_lines. rewrite !omap_app.
  fold (id_lines (replay cursor st)) (id_lines (live ticks (connected st).1).2).
  rewrite id_lines_live. cbn [connected fst snd event_id_counter omap].
  assert (Hrep : ∃ l, id_lines (replay cursor st) = ids l
                      ∧ l `sublist_of` event_history st).
  { unfold replay. destruct cursor as [s|]; [|by exists []; split; [|apply sublist_nil_l]].
    case_decide; [by exists []; split; [|apply sublist_nil_l]|].
    destruct (py_int s) as [k|]; [|by exists []; split; [|apply sublist_nil_l]].
    eexists. split; [apply id_lines_replay_chunks|apply sublist_filter]. }
  destruct Hrep as (l & -> & Hsub).
  assert (Hsubids : ids l `sublist_of` ids (event_history st))
    by (unfold ids; by apply fmap_sublist).
  apply StronglySorted_app_2.
  - intros x y Hx Hy.
    assert (x ≤ event_id_counter st).
    { pose proof (inv_bound _ Hinv) as Hb. rewrite Forall_forall in Hb.
      apply Hb. by eapply elem_of_sublist. }
    apply elem_of_cons in Hy as [->|Hy]; [lia|].
    apply elem_of_seqZ in Hy. lia.
  - eapply StronglySorted_sublist; [exact Hsubids|apply (inv_sorted _ Hinv)].
  - change (StronglySorted Z.lt ([event_id_counter st + 1]
              ++ seqZ (event_id_counter st + 1 + 1) (Z.of_nat (length ticks)))).
    apply StronglySorted_app_2; [|repeat constructor|apply StronglySorted_seqZ].
    intros x y ->%list_elem_of_singleton Hy%elem_of_seqZ. lia.
Qed.

(** X14.  In a loop that runs alone, iteration k (from 0) yields the update
    with the id counter + k + 1, followed by a keep-alive comment exactly
    when that id is a multiple of 15; afterwards the counter has advanced by
    the number of iterations. *)
Theorem live_alone_output (ticks : list (string * Z)) st :
  (live ticks st).2 = mjoin (imap (iteration (event_id_counter st)) ticks)
  ∧ event_id_counter (live ticks st).1 = event_id_counter st + Z.of_nat (length ticks).
Proof.
  revert st. induction ticks as [|[now r] ticks IH]; intros st.
  { cbn. split; [done|lia]. }
  cbn [live]. destruct (IH (update now r st).1) as [IH1 IH2].
  destruct (update now r st) as [st1 o1] eqn:E.
  assert (o1 = [IdLine (event_id_counter st + 1); EventLine "update";
                DataLine (UpdateData (EventData now r ("Update #" +:+ pretty (event_id_counter st + 1))))]
          ∧ event_id_counter st1 = event_id_counter st + 1) as [-> Hc].
  { unfold update in E. by injection E as <- <-. }
  cbn [fst] in *. destruct (live ticks st1) as [st2 o3]. cbn [fst snd] in *.
  split; [|rewrite IH2, Hc; cbn [length]; lia].
  rewrite imap_cons. cbn [mjoin list_join]. rewrite IH1, Hc, app_assoc. f_equal.
  - unfold iteration, heartbeat. cbn [fst snd]. rewrite Hc.
    by replace (event_id_counter st + Z.of_nat 0 + 1) with (event_id_counter st + 1) by lia.
  - f_equal. apply imap_ext. intros k t _. unfold iteration, compose.
    by replace (event_id_counter st + 1 + Z.of_nat k + 1)
      with (event_id_counter st + Z.of_nat (S k) + 1) by lia.
Qed.


(** *** Reading back an id the stream has sent *)

Lemma digit_of_pretty_N_char (d : N) :
  (d < 10)%N →
  digit_of (pretty_N_char d) = Some (Z.of_N d) ∧ is_space (pretty_N_char d) = false
  ∧ nat_of_ascii (pretty_N_char d) ≠ 45%nat ∧ nat_of_ascii (pretty_N_char d) ≠ 43%nat.
Proof.
  intros Hd.
  assert (d = 0 ∨ d = 1 ∨ d = 2 ∨ d = 3 ∨ d = 4 ∨ d = 5 ∨ d = 6 ∨ d = 7
          ∨ d = 8 ∨ d = 9)%N as Hcases by lia.
  repeat (destruct Hcases as [->|Hcases]); try subst d; by vm_compute.
Qed.

(** The characters written for a positive number: digits only, read back
    to the number by [digits] whatever precedes them. *)
Lemma pretty_N_go_digits (x : N) :
  (0 < x)%N →
  ∃ pre,
    pre ≠ [] ∧
    (∀ s, String.list_ascii_of_string (pretty_N_go x s)
          = pre ++ String.list_ascii_of_string s) ∧
    Forall (λ c, is_space c = false ∧ is_Some (digit_of c)) pre ∧
    (∀ acc b rest,
       digits acc b (pre ++ rest)
       = digits (acc * 10 ^ Z.of_nat (length pre) + Z.of_N x) true rest) ∧
    10 ^ Z.of_nat (length pre) ≤ 10 * Z.of_N x.
Proof.
  induction (N.lt_wf_0 x) as [x _ IH]. intros Hx.
  destruct (digit_of_pretty_N_char (x `mod` 10)%N) as (Hd & Hsp & _);
    [by apply N.mod_lt|].
  assert (Hdm : Z.of_N x = 10 * Z.of_N (x `div` 10)%N + Z.of_N (x `mod` 10)%N).
  { rewrite (N.div_mod x 10) at 1 by done. lia. }
  destruct (decide (x `div` 10 = 0)%N) as [Hz|Hnz].
  - exists [pretty_N_char (x `mod` 10)%N]. split_and!; [done| | | |].
    + intros s. by rewrite pretty_N_go_step, Hz, pretty_N_go_0 by done.
    + repeat constructor; [done|by rewrite Hd].
    + intros acc b rest. cbn [app digits length]. rewrite Hd.
      f_equal. rewrite Hdm, Hz. change (Z.of_nat 1) with 1.
      change (Z.of_N 0) with 0. rewrite Z.pow_1_r. ring.
    + cbn [length]. change (Z.of_nat 1) with 1. rewrite Z.pow_1_r. lia.
  - destruct (IH (x `div` 10)%N) as (pre & Hne & Hstr & Hall & Hdig & Hlen);
      [by apply N.div_lt|by apply N.neq_0_lt_0|].
    exists (pre ++ [pretty_N_char (x `mod` 10)%N]). split_and!.
    + by destruct pre.
    + intros s. rewrite pretty_N_go_step, Hstr by done. cbn. by rewrite <- app_assoc.
    + apply Forall_app. split; [done|]. repeat constructor; [done|by rewrite Hd].
    + intros acc b rest. rewrite <- app_assoc. cbn [app]. rewrite Hdig.
      cbn [digits]. rewrite Hd. f_equal. rewrite length_app. cbn [length].
      rewrite Nat2Z.inj_add, Z.pow_add_r by lia. change (Z.of_nat 1) with 1.
      rewrite Z.pow_1_r, Hdm. ring.
    + rewrite length_app. cbn [length].
      rewrite Nat2Z.inj_add, Z.pow_add_r by lia. change (Z.of_nat 1) with 1.
      rewrite Z.pow_1_r, Hdm.
      pose proof (N2Z.is_nonneg (x `mod` 10)) as Hm.
      revert Hlen Hm. generalize (Z.of_N (x `div` 10)) (Z.of_N (x `mod` 10))
        (10 ^ Z.of_nat (length pre)). clear. intros q m p. lia.
Qed.

Lemma digit_count_digits pre :
  Forall (λ c, is_space c = false ∧ is_Some (digit_of c)) pre →
  digit_count pre = length pre.
Proof.
  unfold digit_count. induction 1 as [|c cs [_ Hc] _ IH]; [done|].
  rewrite filter_cons_True by done. cbn [length]. by rewrite IH.
Qed.

(** A number below [10 ^ 4300] is written with at most 4300 digits. *)
Lemma digits_within_limit (x : Z) (n : nat) :
  10 ^ Z.of_nat n ≤ 10 * x → x < 10 ^ max_str_digits → Z.of_nat n ≤ max_str_digits.
Proof.
  intros Hn Hx. unfold max_str_digits in *.
  assert (H : 10 ^ Z.of_nat n < 10 ^ 4301).
  { change 4301 with (4300 + 1). rewrite (Z.pow_add_r 10 4300 1) by lia.
    rewrite Z.pow_1_r. lia. }
  apply Z.pow_lt_mono_r_iff in H; lia.
Qed.

Lemma lstrip_id c cs : is_space c = false → lstrip (c :: cs) = c :: cs.
Proof. intros H. cbn. by rewrite H. Qed.

Lemma strip_digits pre :
  pre ≠ [] → Forall (λ c, is_space c = false ∧ is_Some (digit_of c)) pre →
  strip pre = pre.
Proof.
  intros Hne Hall. unfold strip.
  destruct pre as [|c cs]; [done|].
  assert (is_space c = false) by (apply Forall_cons in Hall as [[? _] _]; done).
  rewrite lstrip_id by done.
  destruct (reverse (c :: cs)) as [|c' cs'] eqn:Hrev.
  { apply (f_equal length) in Hrev. rewrite length_reverse in Hrev. done. }
  rewrite lstrip_id.
  - by rewrite <- Hrev, reverse_involutive.
  - rewrite Forall_forall in Hall. apply Hall.
    apply elem_of_reverse. rewrite Hrev. by left.
Qed.

Lemma py_int_pretty_N (x : N) :
  (0 < x)%N → Z.of_N x < 10 ^ max_str_digits →
  py_int (pretty_N_go x "") = Some (Z.of_N x).
Proof.
  intros Hx Hmax.
  destruct (pretty_N_go_digits x Hx) as (pre & Hne & Hstr & Hall & Hdig & Hlen).
  unfold py_int. rewrite Hstr. cbn [String.list_ascii_of_string]. rewrite app_nil_r.
  rewrite strip_digits by done.
  pose proof (digits_within_limit _ _ Hlen Hmax) as Hlim.
  rewrite <- (digit_count_digits pre Hall) in Hlim.
  destruct pre as [|c cs] eqn:Hpre; [done|].
  rewrite decide_True by done.
  assert (Hc : is_Some (digit_of c))
    by (apply Forall_cons in Hall as [[_ ?] _]; done).
  assert ((nat_of_ascii c =? 45)%nat = false ∧ (nat_of_ascii c =? 43)%nat = false) as [-> ->].
  { destruct Hc as [d Hd]. unfold digit_of in Hd.
    destruct (48 <=? nat_of_ascii c)%nat eqn:H1; [|done].
    apply Nat.leb_le in H1. split; apply Nat.eqb_neq; lia. }
  specialize (Hdig 0 false []). rewrite app_nil_r in Hdig. rewrite Hdig.
  cbn [digits]. by rewrite Z.mul_0_l.
Qed.

Lemma py_int_pretty (z : Z) :
  Z.abs z < 10 ^ max_str_digits → py_int (pretty z) = Some z.
Proof.
  intros Hmax. destruct z as [|p|p].
  - reflexivity.
  - assert (pretty (Z.pos p) = pretty_N_go (N.pos p) "") as -> by reflexivity.
    by rewrite py_int_pretty_N by (cbn in *; lia).
  - assert (pretty (Z.neg p) = "-" +:+ pretty_N_go (N.pos p) "") as -> by reflexivity.
    destruct (pretty_N_go_digits (N.pos p)) as (pre & Hne & Hstr & Hall & Hdig & Hlen);
      [lia|].
    assert (Hlim : Z.of_nat (digit_count ("-"%char :: pre)) ≤ max_str_digits).
    { unfold digit_count. rewrite filter_cons_False by (by intros [? ?]).
      fold (digit_count pre). rewrite (digit_count_digits pre Hall).
      apply (digits_within_limit (Z.of_N (N.pos p))); [done|]. cbn in *. lia. }
    unfold py_int.
    change (String.list_ascii_of_string ("-" +:+ pretty_N_go (N.pos p) ""))
      with ("-"%char :: String.list_ascii_of_string (pretty_N_go (N.pos p) "")).
    rewrite Hstr. cbn [String.list_ascii_of_string]. rewrite app_nil_r.
    assert (Hstrip : strip ("-"%char :: pre) = "-"%char :: pre).
    { unfold strip. rewrite lstrip_id by done.
      destruct (reverse ("-"%char :: pre)) as [|c' cs'] eqn:Hrev.
      { apply (f_equal length) in Hrev. rewrite length_reverse in Hrev. done. }
      rewrite lstrip_id; [by rewrite <- Hrev, reverse_involutive|].
      assert (c' ∈ "-"%char :: pre) as [->|Hin]%elem_of_cons
        by (apply elem_of_reverse; rewrite Hrev; by left); [done|].
      rewrite Forall_forall in Hall. by apply Hall. }
    rewrite Hstrip. rewrite decide_True by done. cbn [Nat.eqb nat_of_ascii].
    change (nat_of_ascii "-" =? 45)%nat with true. cbv iota.
    specialize (Hdig 0 false []). rewrite app_nil_r in Hdig. rewrite Hdig.
    cbn [digits fmap option_fmap option_map]. by rewrite Z.mul_0_l.
Qed.

(** X15.  [int] reads back the decimal text of an integer of at most 4300
    digits, so a cursor that is the text of such an id [k] replays exactly
    the stored events with an id above [k]. *)
Theorem replay_from_sent_id (k : Z) st :
  Z.abs k < 10 ^ max_str_digits →
  py_int (pretty k) = Some k
  ∧ replay (Some (pretty k)) st = missed_events (event_history st) k ≫= replay_chunks
  ∧ id_lines (replay (Some (pretty k)) st) = ids (missed_events (event_history st) k).
Proof.
  intros Hmax. assert (Hk := py_int_pretty k Hmax).
  assert (Hr : replay (Some (pretty k)) st
               = missed_events (event_history st) k ≫= replay_chunks).
  { unfold replay. case_decide as He; [by rewrite He in Hk|]. by rewrite Hk. }
  split_and!; [done|done|]. rewrite Hr. apply id_lines_replay_chunks.
Qed.

(** X15 at the cursor 95, after one session of 99 iterations. *)
Lemma replay_from_sent_id_95 :
  py_int (pretty 95) = Some 95
  ∧ replay (Some (pretty 95)) log_2_100
    = missed_events (event_history log_2_100) 95 ≫= replay_chunks
  ∧ id_lines (replay (Some (pretty 95)) log_2_100)
    = ids (missed_events (event_history log_2_100) 95).
Proof. apply (replay_from_sent_id 95 log_2_100). by vm_compute. Defined.


(** X16.  A client that saw every id up to the counter, and comes back
    with that value as cursor after any further schedule, is replayed
    exactly the events appended in between, cut to the last hundred; the
    decimal text of the counter is read back by [int] as long as it has at
    most 4300 digits. *)
Theorem reconnect_replays_what_was_missed tr tr' :
  let st := (run tr initial).1 in
  let st' := (run tr' st).1 in
  let k := event_id_counter st in
  missed_events (event_history st') k = retained (appended tr' st)
  ∧ (k < 10 ^ max_str_digits →
     replay (Some (pretty k)) st' = retained (appended tr' st) ≫= replay_chunks).
Proof.
  intros st st' k.
  assert (Hinv : inv st) by apply inv_run, inv_initial.
  assert (Hm : missed_events (event_history st') k = retained (appended tr' st)).
  { unfold st'. rewrite history_run by apply (inv_size _ Hinv).
    set (h := event_history st). set (a := appended tr' st).
    assert (Hh : Forall (λ e, id e ≤ k) h).
    { pose proof (inv_bound _ Hinv) as Hb.
      fold h in Hb. unfold ids in Hb. rewrite Forall_fmap in Hb.
      eapply Forall_impl; [exact Hb|]. cbn. unfold k. intros; lia. }
    assert (Ha : Forall (λ e, k < id e) a) by apply appended_ids_above.
    unfold retained. rewrite drop_app.
    change (missed_events (drop (length (h ++ a) - 100) h
                           ++ drop (length (h ++ a) - 100 - length h) a) k)
      with (filter (λ e, k < id e) (drop (length (h ++ a) - 100) h
                           ++ drop (length (h ++ a) - 100 - length h) a)).
    rewrite filter_app.
    fold (missed_events (drop (length (h ++ a) - 100) h) k).
    rewrite missed_events_none by by apply Forall_drop.
    cbn [app]. rewrite length_app.
    replace (length h + length a - 100 - length h)%nat with (length a - 100)%nat
      by (pose proof (inv_size _ Hinv) as Hsz; fold h in Hsz; lia).
    apply missed_events_all_events. by apply Forall_drop. }
  split; [done|]. intros Hmax.
  assert (Hk : py_int (pretty k) = Some k).
  { apply py_int_pretty. pose proof (inv_counter _ Hinv). fold k in H. lia. }
  unfold replay.
  case_decide as He; [by rewrite He in Hk|]. by rewrite Hk, Hm.
Qed.

(** X16 for a client that saw the first session's connected event and
    comes back after that session's two iterations. *)
Lemma reconnect_replays_what_was_missed_two :
  let st := (run [(0%nat, Replay None); (0%nat, Connected)] initial).1 in
  let tr' := [(0%nat, Update "t" 1); (0%nat, Heartbeat);
              (0%nat, Update "t" 2); (0%nat, Heartbeat)] in
  replay (Some (pretty 1)) (run tr' st).1 = retained (appended tr' st) ≫= replay_chunks.
Proof.
  pose proof (reconnect_replays_what_was_missed
                [(0%nat, Replay None); (0%nat, Connected)]
                [(0%nat, Update "t" 1); (0%nat, Heartbeat);
                 (0%nat, Update "t" 2); (0%nat, Heartbeat)]) as [_ H].
  apply H. by vm_compute.
Defined.

End EventStreamExtra.

(* ===================================================================== *)
(** ** Further properties of the connection manager *)
(* ===================================================================== *)

Module ConnectionsExtra.
Import Connections ConnectionsSpec ChatRoom.

Lemma manager_eq (s1 s2 : ConnectionManager) :
  active_connections s1 = active_connections s2 → rooms s1 = rooms s2 → s1 = s2.
Proof. destruct s1, s2. simpl. by intros -> ->. Qed.

Lemma disconnect_registry c self :
  active_connections (disconnect c self) = delete c (active_connections self).
Proof.
  unfold disconnect. cbn [active_connections]. case_decide as Hin; [done|].
  symmetry. apply delete_id. by apply eq_None_not_Some.
Qed.

Lemma disconnect_rooms c self r :
  rooms (disconnect c self) !! r = (λ s, s ∖ {[c]}) <$> rooms self !! r.
Proof. unfold disconnect. cbn [rooms]. by rewrite lookup_fmap. Qed.

Section room_pass.
Context (self : ConnectionManager) (m : message) (exclude : option string).

Lemma room_pass_attempts members :
  attempts (room_pass self m exclude members).2
  = filter (λ c, exclude ≠ Some c ∧ is_Some (active_connections self !! c)) members.
Proof.
  induction members as [|c members IH]; [done|].
  rewrite filter_cons. room_step IH.
  - rewrite decide_False; [done|]. by intros [? _].
  - rewrite decide_True by (split; [done|by eexists]). cbn. by f_equal.
  - rewrite decide_True by (split; [done|by eexists]). cbn. by f_equal.
  - rewrite decide_False; [done|]. intros [_ [? ?]]. congruence.
Qed.

Lemma room_pass_unregistered members :
  unregistered (room_pass self m exclude members).2 = [].
Proof. induction members as [|c members IH]; [done|]. room_step IH; done. Qed.

Lemma room_pass_dead members c :
  c ∈ (room_pass self m exclude members).1 ↔
  c ∈ members ∧ exclude ≠ Some c ∧
  (active_connections self !! c = None ∨
   ∃ ws e, active_connections self !! c = Some ws ∧ send_json ws m = Raise e).
Proof.
  induction members as [|c' members IH].
  - simpl. split; [by intros ?%elem_of_nil|]. by intros [?%elem_of_nil _].
  - room_step IH; rewrite ?elem_of_cons, IH; split.
    + intros (?&?&?). auto.
    + intros ([->|?]&?&?); done.
    + intros (?&?&?). auto.
    + intros ([->|?]&?&Hd); [|done].
      destruct Hd as [?|(ws&e&?&?)]; [congruence|].
      assert (ws = ws0) as -> by congruence. congruence.
    + intros [->|(?&?&?)]; [|auto].
      split_and!; [by left|done|]. right. eauto.
    + intros ([->|?]&?&?); [by left|right; done].
    + intros [->|(?&?&?)]; [|auto]. split_and!; [by left|done|by left].
    + intros ([->|?]&?&?); [by left|right; done].
Qed.

Lemma room_pass_sent members c :
  Sent c m ∈ (room_pass self m exclude members).2 ↔
  c ∈ members ∧ exclude ≠ Some c ∧
  ∃ ws, active_connections self !! c = Some ws ∧ send_json ws m = Return tt.
Proof.
  induction members as [|c' members IH].
  - simpl. split; [by intros ?%elem_of_nil|]. by intros [?%elem_of_nil _].
  - room_step IH; rewrite ?elem_of_cons, IH; split.
    + intros (?&?&?). auto.
    + intros ([->|?]&?&?); done.
    + intros [[= ->]|(?&?&?)]; [|auto].
      split_and!; [by left|done|eauto].
    + intros ([->|?]&?&?); [by left|right; done].
    + intros [[=]|(?&?&?)]. auto.
    + intros ([->|?]&?&(ws&?&?)); [|right; eauto].
      assert (ws = ws0) as -> by congruence. congruence.
    + intros (?&?&?). auto.
    + intros ([->|?]&?&(ws&?&?)); [congruence|eauto].
Qed.
End room_pass.

Lemma discard_all_lookup room disconnected : ∀ (rs : gmap string (gset string)) r,
  foldl (λ rs c, alter (λ s, s ∖ {[c]}) room rs) rs disconnected !! r
  = if decide (r = room)
    then (λ s, s ∖ list_to_set disconnected) <$> rs !! r
    else rs !! r.
Proof.
  induction disconnected as [|d disconnected IH]; intros rs r; cbn [foldl].
  - case_decide; [|done]. destruct (rs !! r) as [s|]; [|done]. cbn. f_equal.
    apply set_eq. intros x. rewrite elem_of_difference, elem_of_empty. tauto.
  - rewrite IH. case_decide as Hr; [subst r|by rewrite lookup_alter_ne].
    rewrite lookup_alter_eq. destruct (rs !! room) as [s|]; [|done]. cbn. f_equal.
    apply set_eq. intros x.
    rewrite !elem_of_difference, elem_of_union, elem_of_singleton. tauto.
Qed.

Lemma room_loop_alone room m exclude self members :
  room_loop room m exclude (size (default ∅ (rooms self !! room))) members [] self
  = (Return (room_pass self m exclude members).1, self,
     (room_pass self m exclude members).2).
Proof.
  induction members as [|c members IH]; cbn [room_loop room_pass].
  - by rewrite decide_True.
  - rewrite decide_True by done. cbn [tail head default other_task].
    rewrite IH. destruct (room_pass self m exclude members) as [d l]. cbn [fst snd].
    case_decide; [done|].
    destruct (active_connections self !! c) as [ws|]; [|done].
    by destruct (send_json ws m) as [[]|e].
Qed.

Lemma broadcast_to_room_unfold room m exclude self members :
  rooms self !! room = Some members →
  broadcast_to_room room m exclude [] self =
  let p := room_pass self m exclude (elements members) in
  (Return tt,
   Manager (active_connections self)
     (foldl (λ rs c, alter (λ s, s ∖ {[c]}) room rs) (rooms self) p.1),
   p.2).
Proof.
  intros Hroom. unfold broadcast_to_room. rewrite Hroom.
  replace (size members) with (size (default ∅ (rooms self !! room)))
    by (by rewrite Hroom).
  by rewrite room_loop_alone.
Qed.

Lemma broadcast_to_room_registry room m exclude self :
  active_connections (broadcast_to_room room m exclude [] self).1.2
  = active_connections self.
Proof.
  destruct (broadcast_to_room_registry_others room m exclude [] self) as [n ->].
  by rewrite take_nil.
Qed.

Lemma broadcast_to_room_rooms room m exclude self r :
  ∃ dead, rooms (broadcast_to_room room m exclude [] self).1.2 !! r
          = if decide (r = room)
            then (λ s, s ∖ list_to_set dead) <$> rooms self !! r
            else rooms self !! r.
Proof.
  destruct (rooms self !! room) as [members|] eqn:E.
  - rewrite (broadcast_to_room_unfold _ _ _ _ _ E). cbv zeta.
    destruct (room_pass _ _ _ _) as [d l]. exists d. cbn [fst snd rooms].
    apply discard_all_lookup.
  - unfold broadcast_to_room. rewrite E.
    exists []. cbn [fst snd]. case_decide; [subst r|done].
    by rewrite E.
Qed.

(** *** What the other tasks cannot undo *)

Lemma other_task_rooms_dom o self :
  dom (rooms self) ⊆ dom (rooms (other_task o self)).
Proof.
  destruct o as [[ws c|c|c room|c room]|]; cbn [other_task connect snd rooms]; try done.
  - unfold disconnect. cbn [rooms]. by rewrite dom_fmap_L.
  - unfold join_room. cbn [rooms]. rewrite dom_alter_L.
    case_decide; [done|]. rewrite dom_insert_L. apply union_subseteq_r.
  - unfold leave_room. cbn [rooms]. by rewrite dom_alter_L.
Qed.

Lemma others_rooms_dom env : ∀ self, dom (rooms self) ⊆ dom (rooms (others env self)).
Proof.
  unfold others. induction env as [|o env IH]; intros self; cbn [foldl]; [done|].
  etrans; [apply other_task_rooms_dom|apply IH].
Qed.

Lemma discard_all_dom room disconnected : ∀ rs : gmap string (gset string),
  dom (foldl (λ rs c, alter (λ s, s ∖ {[c]}) room rs) rs disconnected) = dom rs.
Proof.
  induction disconnected as [|d disconnected IH]; intros rs; cbn [foldl]; [done|].
  by rewrite IH, dom_alter_L.
Qed.

Lemma broadcast_state m exclude env self :
  ∃ n disconnected,
    (broadcast m exclude env self).1.2 = clean_up disconnected (others (take n env) self).
Proof.
  unfold broadcast.
  destruct (broadcast_loop_state m exclude (size (active_connections self))
              (map_to_list (active_connections self)).*1 env self) as [n Hn].
  destruct (broadcast_loop _ _ _ _ _ _) as [[[d|e] s] l]; cbn [fst snd] in *; subst s.
  - by exists n, d.
  - by exists n, [].
Qed.

Lemma broadcast_to_room_state room m exclude env self :
  ∃ n disconnected,
    let s := others (take n env) self in
    (broadcast_to_room room m exclude env self).1.2
    = Manager (active_connections s)
        (foldl (λ rs c, alter (λ s, s ∖ {[c]}) room rs) (rooms s) disconnected).
Proof.
  unfold broadcast_to_room.
  destruct (rooms self !! room) as [members|].
  - destruct (room_loop_state room m exclude (size members) (elements members) env self)
      as [n Hn].
    destruct (room_loop _ _ _ _ _ _ _) as [[[d|e] s] l]; cbn [fst snd] in *; subst s.
    + by exists n, d.
    + exists n, []. cbn [foldl]. by destruct (others _ _).
  - exists 0%nat, []. cbn [foldl take others]. by destruct self.
Qed.


Lemma join_room_lookup c room self r :
  rooms (join_room c room self) !! r
  = if decide (r = room)
    then Some (default ∅ (rooms self !! room) ∪ {[c]})
    else rooms self !! r.
Proof.
  unfold join_room. cbn [rooms]. destruct (decide (r = room)) as [->|Hr].
  - rewrite lookup_alter_eq. case_decide as Hin.
    + by destruct Hin as [s ->].
    + rewrite lookup_insert_eq. apply eq_None_not_Some in Hin. by rewrite Hin.
  - rewrite lookup_alter_ne by done. case_decide; [done|].
    by rewrite lookup_insert_ne.
Qed.

Lemma leave_room_lookup c room self r :
  rooms (leave_room c room self) !! r
  = if decide (r = room)
    then (λ s, s ∖ {[c]}) <$> rooms self !! room
    else rooms self !! r.
Proof.
  unfold leave_room. cbn [rooms]. destruct (decide (r = room)) as [->|Hr].
  - by rewrite lookup_alter_eq.
  - by rewrite lookup_alter_ne.
Qed.

Lemma rooms_dom_broadcast_to_room room m exclude env self :
  dom (rooms self) ⊆ dom (rooms (broadcast_to_room room m exclude env self).1.2).
Proof.
  destruct (broadcast_to_room_state room m exclude env self) as (n & d & ->).
  cbn [rooms]. rewrite discard_all_dom. apply others_rooms_dom.
Qed.

Lemma rooms_dom_broadcast m exclude env self :
  dom (rooms self) ⊆ dom (rooms (broadcast m exclude env self).1.2).
Proof.
  destruct (broadcast_state m exclude env self) as (n & d & ->).
  rewrite clean_up_rooms, dom_fmap_L. apply others_rooms_dom.
Qed.

(** *** The registry *)

(** X1.  [disconnect] takes the id out of the registry and out of every
    room; every other registration and every other membership stays as it
    was, and no room disappears. *)
Theorem disconnect_removes_everywhere c self :
  let self' := disconnect c self in
  active_connections self' !! c = None
  ∧ (∀ c', c' ≠ c → active_connections self' !! c' = active_connections self !! c')
  ∧ (∀ r s, rooms self' !! r = Some s → c ∉ s)
  ∧ (∀ r s, rooms self !! r = Some s →
       ∃ s', rooms self' !! r = Some s' ∧ ∀ c', c' ≠ c → (c' ∈ s' ↔ c' ∈ s))
  ∧ dom (rooms self') = dom (rooms self).
Proof.
  intros self'. unfold self'. split_and!.
  - rewrite disconnect_registry. apply lookup_delete_eq.
  - intros c' Hne. rewrite disconnect_registry. by apply lookup_delete_ne.
  - intros r s. rewrite disconnect_rooms.
    destruct (rooms self !! r) as [s0|]; [|done]. intros [= <-].
    rewrite elem_of_difference, elem_of_singleton. tauto.
  - intros r s Hs. exists (s ∖ {[c]}). rewrite disconnect_rooms, Hs.
    split; [done|]. intros c' Hne.
    rewrite elem_of_difference, elem_of_singleton. tauto.
  - unfold disconnect. cbn [rooms]. apply dom_fmap_L.
Qed.

(** X1 at the manager [lobby] and the id ["b"]. *)
Lemma disconnect_removes_everywhere_lobby :
  active_connections (disconnect "b" lobby) !! "b" = None
  ∧ (∀ r s, rooms (disconnect "b" lobby) !! r = Some s → "b" ∉ s).
Proof.
  pose proof (disconnect_removes_everywhere "b" lobby) as (H1 & _ & H3 & _).
  split; [exact H1 | exact H3].
Defined.

(** X2.  [disconnect] twice is [disconnect] once, and on an id that is
    neither registered nor a member of a room it changes nothing. *)
Theorem disconnect_idempotent c self :
  disconnect c (disconnect c self) = disconnect c self
  ∧ (active_connections self !! c = None →
     (∀ r s, rooms self !! r = Some s → c ∉ s) →
     disconnect c self = self).
Proof.
  split.
  - apply manager_eq.
    + rewrite !disconnect_registry. apply delete_delete_eq.
    + apply map_eq. intros r. rewrite !disconnect_rooms.
      destruct (rooms self !! r) as [s|]; [|done]. cbn. f_equal.
      apply set_eq. intros x. rewrite !elem_of_difference. tauto.
  - intros Hreg Hrooms. apply manager_eq.
    + rewrite disconnect_registry. by apply delete_id.
    + apply map_eq. intros r. rewrite disconnect_rooms.
      destruct (rooms self !! r) as [s|] eqn:Hs; [|done]. cbn. f_equal.
      apply set_eq. intros x. rewrite elem_of_difference, elem_of_singleton.
      split; [tauto|]. intros Hx. split; [done|]. intros ->.
      by apply (Hrooms r s).
Qed.

(** X2 at the empty manager. *)
Lemma disconnect_idempotent_new :
  disconnect "a" (disconnect "a" new) = disconnect "a" new
  ∧ disconnect "a" new = new.
Proof.
  destruct (disconnect_idempotent "a" new) as [H1 H2].
  split; [exact H1|]. apply H2; [reflexivity|].
  intros r s Hs. change (rooms new) with (∅ : gmap string (gset string)) in Hs.
  by rewrite lookup_empty in Hs.
Defined.

(** X3.  [connect] registers the socket under the id it drew and leaves the
    rooms alone; for an id that was not registered and in no room, a
    following [disconnect] gives back the manager as it was. *)
Theorem connect_then_disconnect websocket c self :
  active_connections self !! c = None →
  (∀ r s, rooms self !! r = Some s → c ∉ s) →
  active_connections (connect websocket c self).2 !! c = Some websocket
  ∧ rooms (connect websocket c self).2 = rooms self
  ∧ disconnect c (connect websocket c self).2 = self.
Proof.
  intros Hreg Hrooms. split_and!.
  - cbn. apply lookup_insert_eq.
  - done.
  - apply manager_eq.
    + rewrite disconnect_registry. cbn. by apply delete_insert_id.
    + apply map_eq. intros r. rewrite disconnect_rooms. cbn [connect snd rooms].
      destruct (rooms self !! r) as [s|] eqn:Hs; [|done]. cbn. f_equal.
      apply set_eq. intros x. rewrite elem_of_difference, elem_of_singleton.
      split; [tauto|]. intros Hx. split; [done|]. intros ->.
      by apply (Hrooms r s).
Qed.

(** X3 at the manager [lobby] and a new id. *)
Lemma connect_then_disconnect_lobby :
  active_connections (connect (Socket 9 None) "z" lobby).2 !! "z" = Some (Socket 9 None)
  ∧ rooms (connect (Socket 9 None) "z" lobby).2 = rooms lobby
  ∧ disconnect "z" (connect (Socket 9 None) "z" lobby).2 = lobby.
Proof.
  apply (connect_then_disconnect (Socket 9 None) "z" lobby); [reflexivity|].
  intros r s Hs Hz.
  destruct (decide (r = "lobby")) as [->|Hne].
  - vm_compute in Hs. injection Hs as <-. revert Hz. vm_compute. discriminate.
  - unfold lobby in Hs. rewrite !join_room_lookup in Hs.
    rewrite !decide_False in Hs by done. cbn in Hs. by rewrite lookup_empty in Hs.
Defined.


(** *** Rooms *)

(** X4.  [join_room] creates the room when it is missing and adds the id
    (registered or not) to it: the other rooms and the registry are
    untouched, the member count grows by one for a new member and stays for
    one already in, and joining again changes nothing. *)
Theorem join_room_adds_member c room self :
  let members := default ∅ (rooms self !! room) in
  let self' := join_room c room self in
  rooms self' !! room = Some (members ∪ {[c]})
  ∧ (∀ r, r ≠ room → rooms self' !! r = rooms self !! r)
  ∧ active_connections self' = active_connections self
  ∧ get_room_count room self'
    = (if decide (c ∈ members) then get_room_count room self
       else S (get_room_count room self))
  ∧ join_room c room self' = self'.
Proof.
  intros members self'. unfold self'. split_and!.
  - rewrite join_room_lookup. by rewrite decide_True.
  - intros r Hr. rewrite join_room_lookup. by rewrite decide_False.
  - done.
  - unfold get_room_count. rewrite join_room_lookup, decide_True by done.
    cbn [default]. fold members. unfold id. case_decide as Hin.
    + assert (members ∪ {[c]} = members) as ->; [|done].
      apply set_eq. intros x. rewrite elem_of_union, elem_of_singleton.
      split; [intros [?| ->]; done | auto].
    + rewrite size_union, size_singleton by
        (intros x Hx ->%elem_of_singleton; done). lia.
  - apply manager_eq; [done|]. apply map_eq. intros r.
    rewrite !join_room_lookup. case_decide; [|done].
    rewrite decide_True by done. cbn [default]. unfold id. f_equal.
    apply set_eq. intros x. rewrite !elem_of_union. tauto.
Qed.

(** X4 at the manager [lobby] and a new room. *)
Lemma join_room_adds_member_lobby :
  rooms (join_room "a" "hall" lobby) !! "lobby" = rooms lobby !! "lobby"
  ∧ get_room_count "hall" (join_room "a" "hall" lobby) = 1%nat.
Proof.
  pose proof (join_room_adds_member "a" "hall" lobby) as (_ & H2 & _ & H4 & _).
  split; [by apply H2|]. rewrite H4. reflexivity.
Defined.

(** X5.  [leave_room] on an unknown room changes nothing and does not
    create the room; leaving after joining restores the member set, yet the
    room stays, empty if need be; leaving never raises the member count. *)
Theorem leave_room_keeps_room c room self :
  let members := default ∅ (rooms self !! room) in
  (rooms self !! room = None → leave_room c room self = self)
  ∧ rooms (leave_room c room (join_room c room self)) !! room
    = Some (members ∖ {[c]})
  ∧ (c ∉ members →
     get_room_count room (leave_room c room (join_room c room self))
     = get_room_count room self)
  ∧ (∀ c', get_room_count room (leave_room c' room self) ≤ get_room_count room self)%nat.
Proof.
  intros members. split_and!.
  - intros Hnone. apply manager_eq; [done|]. apply map_eq. intros r.
    rewrite leave_room_lookup. case_decide; [subst r|done]. by rewrite Hnone.
  - rewrite leave_room_lookup, decide_True, join_room_lookup, decide_True by done.
    cbn. f_equal. fold members. apply set_eq. intros x.
    rewrite !elem_of_difference, elem_of_union, elem_of_singleton. tauto.
  - intros Hnotin. unfold get_room_count.
    rewrite leave_room_lookup, decide_True, join_room_lookup, decide_True by done.
    cbn. fold members.
    assert ((members ∪ {[c]}) ∖ {[c]} = members) as ->; [|done].
    apply set_eq. intros x.
    rewrite !elem_of_difference, elem_of_union, elem_of_singleton.
    split; [tauto|]. intros Hx. split; [auto|]. by intros ->.
  - intros c'. unfold get_room_count. rewrite leave_room_lookup, decide_True by done.
    destruct (rooms self !! room) as [s|]; [|done]. cbn.
    apply subseteq_size. intros x. rewrite elem_of_difference. tauto.
Qed.

(** X5 at the empty manager. *)
Lemma leave_room_keeps_room_new :
  leave_room "a" "lobby" new = new
  ∧ get_room_count "lobby" (leave_room "a" "lobby" (join_room "a" "lobby" new)) = 0%nat
  ∧ is_Some (rooms (leave_room "a" "lobby" (join_room "a" "lobby" new)) !! "lobby").
Proof.
  pose proof (leave_room_keeps_room "a" "lobby" new) as (H1 & H2 & H3 & _).
  split_and!.
  - by apply H1.
  - rewrite H3; [reflexivity|]. vm_compute. discriminate.
  - rewrite H2. by eexists.
Defined.

(** X6.  No method deletes a room: [disconnect], [leave_room], [broadcast]
    and [broadcast_to_room] keep the set of room names, [join_room] can only
    add one, and [get_room_count] answers 0 for a name that is not a room.
    Whatever other tasks do during a broadcast, and also when the broadcast
    raises, every room is still a room afterwards. *)
Theorem rooms_never_deleted self :
  (∀ c, dom (rooms (disconnect c self)) = dom (rooms self))
  ∧ (∀ c room, dom (rooms (leave_room c room self)) = dom (rooms self))
  ∧ (∀ c room, dom (rooms (join_room c room self)) = {[room]} ∪ dom (rooms self))
  ∧ (∀ m exclude, dom (rooms (broadcast m exclude [] self).1.2) = dom (rooms self))
  ∧ (∀ room m exclude,
       dom (rooms (broadcast_to_room room m exclude [] self).1.2) = dom (rooms self))
  ∧ (∀ room, room ∉ dom (rooms self) → get_room_count room self = 0%nat)
  ∧ (∀ m exclude env,
       dom (rooms self) ⊆ dom (rooms (broadcast m exclude env self).1.2))
  ∧ (∀ room m exclude env,
       dom (rooms self) ⊆ dom (rooms (broadcast_to_room room m exclude env self).1.2)).
Proof.
  split_and!.
  - intros c. unfold disconnect. cbn [rooms]. apply dom_fmap_L.
  - intros c room. unfold leave_room. cbn [rooms]. apply dom_alter_L.
  - intros c room. unfold join_room. cbn [rooms]. rewrite dom_alter_L.
    case_decide as Hin; [|apply dom_insert_L].
    apply elem_of_dom in Hin. apply set_eq. intros x.
    rewrite elem_of_union, elem_of_singleton. split; [auto|]. by intros [->|?].
  - intros m exclude. rewrite broadcast_unfold. cbn [fst snd].
    rewrite clean_up_rooms. apply dom_fmap_L.
  - intros room m exclude. apply set_eq. intros r. rewrite !elem_of_dom.
    destruct (broadcast_to_room_rooms room m exclude self r) as [dead ->].
    case_decide; [|done]. by rewrite <- !not_eq_None_Some, fmap_None.
  - intros room Hroom%not_elem_of_dom. unfold get_room_count. by rewrite Hroom.
  - intros m exclude env. apply rooms_dom_broadcast.
  - intros room m exclude env. apply rooms_dom_broadcast_to_room.
Qed.

(** X6 at the manager [lobby]. *)
Lemma rooms_never_deleted_lobby :
  dom (rooms (disconnect "a" (disconnect "b" lobby))) = dom (rooms lobby)
  ∧ get_room_count "hall" lobby = 0%nat.
Proof.
  pose proof (rooms_never_deleted lobby) as (H1 & _ & _ & _ & _ & H6 & _).
  pose proof (rooms_never_deleted (disconnect "b" lobby)) as (H1' & _).
  split; [by rewrite H1', H1|]. apply H6. vm_compute. discriminate.
Defined.

(** *** Room broadcast *)

(** X7.  When no other task calls the manager while it is suspended, a
    room broadcast returns normally and attempts a send exactly to the
    members of the room that are registered and not excluded, once each,
    and the message goes through exactly for those of them whose transport
    works; for an unknown room it sends nothing.  Whatever other tasks do
    meanwhile, it calls [disconnect] for nobody, attempts no send to the
    excluded id, and the only exception it raises is [RuntimeError]. *)
Theorem broadcast_to_room_targets room m exclude self :
  let log := (broadcast_to_room room m exclude [] self).2 in
  let members := default ∅ (rooms self !! room) in
  (broadcast_to_room room m exclude [] self).1.1 = Return tt
  ∧ NoDup (attempts log)
  ∧ (∀ c, c ∈ attempts log ↔
          c ∈ members ∧ exclude ≠ Some c ∧ is_Some (active_connections self !! c))
  ∧ (∀ c, Sent c m ∈ log ↔
          c ∈ members ∧ exclude ≠ Some c ∧
          ∃ ws, active_connections self !! c = Some ws ∧ send_json ws m = Return tt)
  ∧ unregistered log = []
  ∧ (∀ env,
       (∀ x, exclude = Some x →
             x ∉ attempts (broadcast_to_room room m exclude env self).2)
       ∧ unregistered (broadcast_to_room room m exclude env self).2 = []
       ∧ ∀ e, (broadcast_to_room room m exclude env self).1.1 = Raise e →
              e = RuntimeError).
Proof.
  intros log members. unfold log, members.
  destruct (rooms self !! room) as [s|] eqn:Hroom.
  - rewrite (broadcast_to_room_unfold _ _ _ _ _ Hroom). cbn [fst snd default].
    split_and!; [done| | | |apply room_pass_unregistered|].
    + rewrite room_pass_attempts. apply NoDup_filter, NoDup_elements.
    + intros c. rewrite room_pass_attempts, list_elem_of_filter, elem_of_elements.
      tauto.
    + intros c. rewrite room_pass_sent, elem_of_elements. tauto.
    + intros env. unfold broadcast_to_room. rewrite Hroom.
      pose proof (room_loop_attempts room m exclude (size s) (elements s) env self) as H1.
      pose proof (room_loop_unregistered room m exclude (size s) (elements s) env self) as H2.
      pose proof (λ e, room_loop_raises room m exclude (size s) (elements s) e env self) as H3.
      assert (H0 : ∀ x l, exclude = Some x →
                attempts l `sublist_of` filter (λ c, exclude ≠ Some c) (elements s) →
                x ∉ attempts l).
      { intros x l Hx Hsub Hin. eapply elem_of_sublist in Hsub; [|exact Hin].
        by apply list_elem_of_filter in Hsub as [? _]. }
      destruct (room_loop _ _ _ _ _ _ _) as [[[d|e'] s'] l]; cbn [fst snd] in *;
        split_and!; try done; try (intros x Hx; by apply H0).
      intros e [= <-]. by apply H3.
  - unfold broadcast_to_room. rewrite Hroom. cbn.
    split_and!; [done|constructor| | |done|].
    + intros c. split; [by intros ?%elem_of_nil|]. by intros [?%elem_of_empty _].
    + intros c. split; [by intros ?%elem_of_nil|]. by intros [?%elem_of_empty _].
    + intros env. split_and!; [|done|done]. intros x _. apply not_elem_of_nil.
Qed.

(** X8.  After a room broadcast during which no other task calls the
    manager, the room holds exactly its former members that were excluded
    or were sent the message: members missing from the registry and members
    whose send raised are discarded.  The registry and the other rooms are
    untouched, and an unknown room leaves the manager as it was. *)
Theorem broadcast_to_room_discards_dead room m exclude self :
  let self' := (broadcast_to_room room m exclude [] self).1.2 in
  active_connections self' = active_connections self
  ∧ (∀ r, r ≠ room → rooms self' !! r = rooms self !! r)
  ∧ (∀ members, rooms self !! room = Some members →
       ∃ members', rooms self' !! room = Some members' ∧
         ∀ c, c ∈ members' ↔
              c ∈ members ∧
              (exclude = Some c ∨
               ∃ ws, active_connections self !! c = Some ws ∧ send_json ws m = Return tt))
  ∧ (rooms self !! room = None → self' = self).
Proof.
  intros self'. unfold self'. split_and!.
  - apply broadcast_to_room_registry.
  - intros r Hr. destruct (broadcast_to_room_rooms room m exclude self r) as [dead ->].
    by rewrite decide_False.
  - intros members Hroom. rewrite (broadcast_to_room_unfold _ _ _ _ _ Hroom).
    cbn [fst snd rooms]. eexists. rewrite discard_all_lookup, decide_True, Hroom by done.
    split; [done|]. intros c.
    rewrite elem_of_difference, elem_of_list_to_set, room_pass_dead, elem_of_elements.
    split.
    + intros [Hin Hnot]. split; [done|].
      destruct (decide (exclude = Some c)) as [|Hex]; [by left|right].
      destruct (active_connections self !! c) as [ws|] eqn:Hreg.
      * exists ws. split; [done|].
        destruct (send_json ws m) as [[]|e] eqn:Hsend; [done|].
        exfalso. apply Hnot. split_and!; [done..|]. right. eauto.
      * exfalso. apply Hnot. split_and!; [done..|]. by left.
    + intros [Hin Hok]. split; [done|]. intros (_ & Hex & Hdead).
      destruct Hok as [?|(ws & Hreg & Hsend)]; [done|].
      destruct Hdead as [?|(ws' & e & ? & ?)]; [congruence|].
      assert (ws' = ws) as -> by congruence. congruence.
  - intros Hnone. unfold broadcast_to_room. by rewrite Hnone.
Qed.

(** X8 at the manager [lobby]. *)
Lemma broadcast_to_room_discards_dead_lobby :
  ∃ members',
    rooms (broadcast_to_room "lobby" hello None [] lobby).1.2 !! "lobby" = Some members' ∧
    ∀ c, c ∈ members' ↔
         c ∈ ({["a"; "b"]} : gset string) ∧
         (None = Some c ∨
          ∃ ws, active_connections lobby !! c = Some ws ∧ send_json ws hello = Return tt).
Proof.
  pose proof (broadcast_to_room_discards_dead "lobby" hello None lobby) as (_ & _ & H & _).
  apply H. vm_compute. reflexivity.
Defined.

(** *** Global broadcast *)

(** X9.  After a global broadcast without exclusion during which no other
    task calls the manager, every connection left in the registry has a
    working transport, so a broadcast that follows on the same sockets,
    again undisturbed, fails for nobody and leaves the manager unchanged. *)
Theorem broadcast_leaves_only_live m self :
  let self' := (broadcast m None [] self).1.2 in
  (∀ c ws, active_connections self' !! c = Some ws → failure ws = None)
  ∧ (∀ m' exclude, (broadcast m' exclude [] self').1.2 = self')
  ∧ (∀ m' exclude c, Failed c m' ∉ (broadcast m' exclude [] self').2).
Proof.
  intros self'.
  assert (Hlive : ∀ c ws, active_connections self' !! c = Some ws → failure ws = None).
  { intros c ws. unfold self'. rewrite broadcast_unfold. cbn [fst snd].
    rewrite clean_up_lookup. case_decide as Hdead; [done|]. intros Hreg.
    destruct (failure ws) as [e|] eqn:Hf; [|done]. exfalso. apply Hdead.
    apply broadcast_pass_dead. exists ws, e.
    split_and!; [by apply elem_of_map_to_list|done|]. unfold send_json. by rewrite Hf. }
  assert (Hnone : ∀ m' exclude,
    (broadcast_pass m' exclude (map_to_list (active_connections self'))).1 = []).
  { intros m' exclude.
    destruct (broadcast_pass m' exclude _).1 as [|c l] eqn:E; [done|]. exfalso.
    assert (Hc : c ∈ (broadcast_pass m' exclude
                       (map_to_list (active_connections self'))).1)
      by (rewrite E; by left).
    apply broadcast_pass_dead in Hc as (ws & e & Hin%elem_of_map_to_list & _ & Hsend).
    apply Hlive in Hin. unfold send_json in Hsend. by rewrite Hin in Hsend. }
  split_and!; [done| |].
  - intros m' exclude. rewrite broadcast_unfold. cbn [fst snd]. by rewrite Hnone.
  - intros m' exclude c. rewrite broadcast_unfold. cbn [fst snd].
    rewrite Hnone, app_nil_r.
    assert (∀ items, Failed c m' ∈ (broadcast_pass m' exclude items).2 →
                     c ∈ (broadcast_pass m' exclude items).1) as Hfail.
    { induction items as [|[c' ws'] items IH]; [by intros ?%elem_of_nil|].
      pass_step broadcast_pass IH; rewrite ?elem_of_cons.
      - done.
      - intros [[=]|?]; auto.
      - intros [[= <-]|?]; auto. }
    intros Hin%Hfail. rewrite Hnone in Hin. by apply elem_of_nil in Hin.
Qed.


(** X9 at the five connections. *)
Lemma broadcast_leaves_only_live_five :
  (broadcast hello None [] (broadcast hello None [] five).1.2).1.2
  = (broadcast hello None [] five).1.2
  ∧ (∀ ws, active_connections (broadcast hello None [] five).1.2 !! "a" = Some ws →
           failure ws = None).
Proof.
  pose proof (broadcast_leaves_only_live hello five) as (H1 & H2 & _).
  split; [apply H2|apply H1].
Defined.

(** *** The chat room endpoint *)

Lemma broadcast_to_room_attempts_sublist room m exclude env self :
  attempts (broadcast_to_room room m exclude env self).2
  `sublist_of` filter (λ c, exclude ≠ Some c)
                 (elements (default ∅ (rooms self !! room))).
Proof.
  unfold broadcast_to_room. destruct (rooms self !! room) as [s|]; [|apply sublist_nil_l].
  pose proof (room_loop_attempts room m exclude (size s) (elements s) env self) as H.
  by destruct (room_loop _ _ _ _ _ _ _) as [[[d|e] s'] l].
Qed.

Lemma other_task_absent c o self :
  from_option (brings_in c) false o = false →
  absent c self → absent c (other_task o self).
Proof.
  intros Ho [Hreg Hrooms].
  destruct o as [[ws c'|c'|c' room|c' room]|]; cbn [other_task from_option brings_in] in *;
    [| | | |done].
  - apply bool_decide_eq_false in Ho. split; [|done].
    cbn. by rewrite lookup_insert_ne.
  - split.
    + rewrite disconnect_registry. rewrite lookup_delete_None. by right.
    + intros r s. rewrite disconnect_rooms.
      destruct (rooms self !! r) as [s0|] eqn:Hs; [|done]. intros [= <-].
      rewrite elem_of_difference. intros [? _]. by eapply Hrooms.
  - apply bool_decide_eq_false in Ho. split; [done|].
    intros r s. rewrite join_room_lookup. case_decide as Hr; [|apply Hrooms].
    intros [= <-]. rewrite elem_of_union, elem_of_singleton.
    intros [Hin|?]; [|done].
    destruct (rooms self !! room) as [s0|] eqn:Hs; cbn in Hin; [|by apply elem_of_empty in Hin].
    by eapply Hrooms.
  - split; [done|].
    intros r s. rewrite leave_room_lookup. case_decide as Hr; [|apply Hrooms].
    destruct (rooms self !! room) as [s0|] eqn:Hs; [|done]. intros [= <-].
    rewrite elem_of_difference. intros [? _]. by eapply Hrooms.
Qed.

Lemma others_absent c env : ∀ self,
  Forall (λ o, from_option (brings_in c) false o = false) env →
  absent c self → absent c (others env self).
Proof.
  unfold others. induction env as [|o env IH]; intros self Henv Habs; cbn [foldl]; [done|].
  apply Forall_cons in Henv as [Ho Henv]. apply IH; [done|]. by apply other_task_absent.
Qed.

Lemma chat_leave_absent room c env self :
  Forall (λ o, from_option (brings_in c) false o = false) env →
  absent c (chat_leave room c env self).1.2.
Proof.
  intros Henv. unfold chat_leave.
  set (s2 := disconnect c (leave_room c room self)).
  assert (Hs2 : absent c s2).
  { split.
    - unfold s2. rewrite disconnect_registry. apply lookup_delete_eq.
    - intros r s. unfold s2. rewrite disconnect_rooms.
      destruct (rooms (leave_room c room self) !! r) as [s0|]; [|done]. intros [= <-].
      rewrite elem_of_difference, elem_of_singleton. tauto. }
  destruct (broadcast_to_room_state room
              (user_left_message c (get_room_count room s2)) None env s2)
    as (n & d & ->).
  destruct (others_absent c (take n env) s2) as [Hreg Hrooms];
    [by apply Forall_take|done|].
  split; [done|]. cbn [rooms]. intros r s. rewrite discard_all_lookup.
  case_decide; [|apply Hrooms].
  destruct (rooms (others (take n env) s2) !! r) as [s0|] eqn:Hs; [|done].
  intros [= <-]. rewrite elem_of_difference. intros [? _]. by eapply Hrooms.
Qed.

Lemma chat_leave_registry room c self :
  active_connections (chat_leave room c [] self).1.2 = delete c (active_connections self).
Proof.
  unfold chat_leave. by rewrite broadcast_to_room_registry, disconnect_registry.
Qed.

(** X10.  However the chat endpoint ends (the peer disconnects, the
    welcome or the receive raises, or a broadcast raises because another
    task changed the room), its [finally] block has run: as long as no other
    task registers the client or adds it to a room during the last notice,
    the client is out of the registry and of every room.  The [finally]
    block alone, from any manager and undisturbed, removes exactly that
    registration and keeps the room names; disturbed or not, it deletes no
    room. *)
Theorem chat_room_always_cleans_up websocket room c entering frames closing leaving self :
  let self' := (chat_room websocket room c entering frames closing leaving self).1.2 in
  (Forall (λ o, from_option (brings_in c) false o = false) leaving →
     active_connections self' !! c = None
     ∧ (∀ r s, rooms self' !! r = Some s → c ∉ s))
  ∧ (∀ s0 : ConnectionManager,
       active_connections (chat_leave room c [] s0).1.2 = delete c (active_connections s0)
       ∧ (∀ r s, rooms (chat_leave room c [] s0).1.2 !! r = Some s → c ∉ s)
       ∧ dom (rooms (chat_leave room c [] s0).1.2) = dom (rooms s0))
  ∧ (∀ (s0 : ConnectionManager) env,
       dom (rooms s0) ⊆ dom (rooms (chat_leave room c env s0).1.2)).
Proof.
  intros self'.
  assert (∃ s2, self' = (chat_leave room c leaving s2).1.2) as [s2 ->].
  { unfold self', chat_room.
    destruct (chat_enter websocket room c entering self) as [[r s1] l1].
    destruct r as [[]|e].
    - destruct (chat_loop room c frames s1) as [[[[]|e] s] l];
        exists s; by destruct (chat_leave room c leaving s) as [[? ?] ?].
    - exists s1. by destruct (chat_leave room c leaving s1) as [[? ?] ?]. }
  split_and!.
  - intros Henv. apply (chat_leave_absent room c leaving s2 Henv).
  - intros s0. split_and!.
    + apply chat_leave_registry.
    + apply (chat_leave_absent room c [] s0). constructor.
    + unfold chat_leave. apply set_eq. intros r. rewrite !elem_of_dom.
      destruct (broadcast_to_room_rooms room
                  (user_left_message c
                     (get_room_count room (disconnect c (leave_room c room s0))))
                  None (disconnect c (leave_room c room s0)) r) as [dead ->].
      rewrite disconnect_rooms, leave_room_lookup.
      rewrite <- !not_eq_None_Some.
      repeat case_decide; subst; rewrite ?fmap_None; done.
  - intros s0 env. unfold chat_leave.
    etrans; [|apply rooms_dom_broadcast_to_room].
    unfold disconnect, leave_room. cbn [rooms].
    by rewrite dom_fmap_L, dom_alter_L.
Qed.

(** X10 at the manager [lobby], with another client joining the room
    during the last notice. *)
Lemma chat_room_always_cleans_up_lobby :
  active_connections
    (chat_room (Socket 9 None) "lobby" "z" [] [("hi", "t", [])] WebSocketDisconnect
       [Some (Joins "y" "lobby")] lobby).1.2
  !! "z" = None
  ∧ active_connections (chat_leave "lobby" "a" [] lobby).1.2
    = delete "a" (active_connections lobby).
Proof.
  pose proof (chat_room_always_cleans_up (Socket 9 None) "lobby" "z" [] [("hi", "t", [])]
                WebSocketDisconnect [Some (Joins "y" "lobby")] lobby) as (H1 & H3 & _).
  split; [apply H1; by repeat constructor|]. by destruct (H3 lobby) as (H & _).
Defined.

(** X11.  Entering a chat room registers the client and makes it a member;
    the first thing sent is the welcome to the client itself (which raises
    if its transport fails), and the notice that follows is never sent to
    the client, whatever other tasks do meanwhile.  A text the client then
    sends is broadcast without exclusion, so when no other task calls the
    manager during that broadcast, a client with a working transport gets
    its own text back. *)
Theorem chat_room_deliveries websocket room c self :
  let welcome := joined_room_message room c
                   (get_room_count room (join_room c room (connect websocket c self).2)) in
  let entered := chat_enter websocket room c [] self in
  active_connections entered.1.2 !! c = Some websocket
  ∧ (∃ s, rooms entered.1.2 !! room = Some s ∧ c ∈ s)
  ∧ (∀ env, ∃ log,
       (chat_enter websocket room c env self).2
       = (if failure websocket is None
          then Sent c welcome else Failed c welcome) :: log
       ∧ c ∉ attempts log)
  ∧ (failure websocket = None →
     ∀ data timestamp,
       Sent c (chat_message c room data timestamp)
       ∈ (chat_receive room c data timestamp [] entered.1.2).2).
Proof.
  intros welcome entered.
  set (s1 := (connect websocket c self).2).
  set (s2 := join_room c room s1).
  assert (Hreg : active_connections s2 !! c = Some websocket)
    by (cbn; apply lookup_insert_eq).
  assert (Hroom : rooms s2 !! room = Some (default ∅ (rooms s1 !! room) ∪ {[c]}))
    by (unfold s2; by rewrite join_room_lookup, decide_True).
  set (notice := user_joined_message c (get_room_count room s2)).
  assert (Henv : ∀ env, chat_enter websocket room c env self =
    match failure websocket with
    | None => ((broadcast_to_room room notice (Some c) env s2).1.1,
               (broadcast_to_room room notice (Some c) env s2).1.2,
               Sent c welcome :: (broadcast_to_room room notice (Some c) env s2).2)
    | Some e => (Raise e, s2, [Failed c welcome])
    end).
  { intros env. unfold chat_enter. fold s1 s2 welcome. unfold send_personal_message.
    rewrite Hreg. unfold send_json. destruct (failure websocket) as [e|]; [done|].
    fold notice. by destruct (broadcast_to_room room notice (Some c) env s2) as [[? ?] ?]. }
  assert (Hkeep : ∃ s, rooms (broadcast_to_room room notice (Some c) [] s2).1.2 !! room
                       = Some s ∧ c ∈ s).
  { rewrite (broadcast_to_room_unfold _ _ _ _ _ Hroom). cbn [fst snd rooms].
    eexists. rewrite discard_all_lookup, decide_True, Hroom by done.
    split; [done|]. rewrite elem_of_difference, elem_of_list_to_set, room_pass_dead.
    split; [apply elem_of_union; right; by apply elem_of_singleton|].
    by intros (_ & ? & _). }
  assert (Hnotice : ∀ env, c ∉ attempts (broadcast_to_room room notice (Some c) env s2).2).
  { intros env Hin.
    pose proof (broadcast_to_room_attempts_sublist room notice (Some c) env s2) as Hsub.
    eapply elem_of_sublist in Hsub; [|exact Hin].
    by apply list_elem_of_filter in Hsub as [? _]. }
  unfold entered. rewrite (Henv []).
  destruct (failure websocket) as [e|] eqn:Hf; cbn [fst snd].
  - split_and!; [done| | |done].
    + eexists. split; [exact Hroom|].
      apply elem_of_union; right; by apply elem_of_singleton.
    + intros env. rewrite Henv. eexists. split; [done|apply not_elem_of_nil].
  - split_and!.
    + by rewrite broadcast_to_room_registry.
    + exact Hkeep.
    + intros env. rewrite Henv. eexists. split; [done|]. apply Hnotice.
    + intros _ data timestamp. unfold chat_receive.
      destruct Hkeep as (s & Hs & Hin).
      rewrite (broadcast_to_room_unfold _ _ _ _ _ Hs). cbn [snd].
      apply room_pass_sent. split_and!; [by apply elem_of_elements|done|].
      exists websocket. rewrite broadcast_to_room_registry.
      split; [done|]. unfold send_json. by rewrite Hf.
Qed.

(** X11 at the manager [lobby] and a new client. *)
Lemma chat_room_deliveries_lobby :
  Sent "z" (chat_message "z" "lobby" "hi" "t")
  ∈ (chat_receive "lobby" "z" "hi" "t" []
       (chat_enter (Socket 9 None) "lobby" "z" [] lobby).1.2).2.
Proof.
  pose proof (chat_room_deliveries (Socket 9 None) "lobby" "z" lobby) as (_ & _ & _ & H).
  by apply H.
Defined.

End ConnectionsExtra.

(* ===================================================================== *)
(** ** Properties of the REST resources *)
(* ===================================================================== *)

Module RestApiSpec.
Import RestApi.

Lemma dict_get_set_eq {V} k (v : V) d : dict_get k (dict_set k v d) = Some v.
Proof.
  induction d as [|[k' v'] d IH]; cbn.
  - by rewrite decide_True.
  - case_decide; cbn; [by rewrite decide_True|by rewrite decide_False].
Qed.

Lemma dict_get_set_ne {V} k k' (v : V) d :
  k' ≠ k → dict_get k' (dict_set k v d) = dict_get k' d.
Proof.
  intros Hne. induction d as [|[k0 v0] d IH]; cbn.
  - by rewrite decide_False.
  - case_decide; cbn.
    + subst k0. by rewrite !decide_False.
    + by rewrite IH.
Qed.

Lemma dict_get_del_eq {V} k (d : dict V) : dict_get k (dict_del k d) = None.
Proof.
  unfold dict_del. induction d as [|[k' v'] d IH]; [done|].
  rewrite filter_cons. cbn [fst]. case_decide; [|done].
  cbn. by rewrite decide_False.
Qed.

Lemma dict_get_del_ne {V} k k' (d : dict V) :
  k' ≠ k → dict_get k' (dict_del k d) = dict_get k' d.
Proof.
  intros Hne. unfold dict_del. induction d as [|[k0 v0] d IH]; [done|].
  rewrite filter_cons. cbn [fst]. case_decide as Hk; cbn.
  - by rewrite IH.
  - rewrite IH. subst k0. by rewrite decide_False.
Qed.

Lemma dict_set_keys {V} k (v : V) d :
  is_Some (dict_get k d) → (dict_set k v d).*1 = d.*1.
Proof.
  induction d as [|[k' v'] d IH]; cbn; [by intros [? ?]|].
  case_decide; cbn; [by subst|]. intros H'. by rewrite IH.
Qed.

Lemma dict_set_fresh {V} k (v : V) d :
  dict_get k d = None → dict_set k v d = d ++ [(k, v)].
Proof.
  induction d as [|[k' v'] d IH]; cbn; [done|].
  case_decide; [done|]. intros H'. by rewrite IH.
Qed.

Lemma dict_del_absent {V} k (d : dict V) : dict_get k d = None → dict_del k d = d.
Proof.
  unfold dict_del. induction d as [|[k' v'] d IH]; [done|]. cbn [dict_get].
  case_decide; [done|]. intros H'. rewrite filter_cons_True by done. by rewrite IH.
Qed.

(** *** Users *)

(** X17.  A created user is found under its id with the data given, other
    users are untouched, deleting it succeeds and makes the lookup answer
    404, and creating then deleting a user whose id was new gives back the
    tables as they were. *)
Theorem user_create_get_delete user_data id now st :
  let created := create_user user_data id now st in
  get_user id created.2 = Ok created.1
  ∧ user_id created.1 = id
  ∧ (∀ id', id' ≠ id → get_user id' created.2 = get_user id' st)
  ∧ (delete_user id created.2).1 = Ok tt
  ∧ get_user id (delete_user id created.2).2 = HTTPException 404 "User not found"
  ∧ (dict_get id (users_db st) = None → (delete_user id created.2).2 = st).
Proof.
  intros created. unfold created, create_user, get_user, delete_user. cbn [fst snd users_db posts_db].
  rewrite dict_get_set_eq. cbn [fst snd users_db posts_db]. split_and!; try done.
  - intros id' Hne. by rewrite dict_get_set_ne.
  - by rewrite dict_get_del_eq.
  - intros Hfresh. destruct st as [us ps]. cbn in *. f_equal.
    rewrite dict_set_fresh by done. unfold dict_del. rewrite filter_app.
    fold (dict_del id us). rewrite dict_del_absent by done.
    rewrite filter_cons_False by (cbn; auto). by rewrite app_nil_r.
Qed.

(** X17 at the sample tables. *)
Lemma user_create_get_delete_sample :
  (delete_user "u2"
     (create_user (MkUserBase "Ann" "ann@example.com") "u2" 5 sample_db).2).2
  = sample_db.
Proof.
  pose proof (user_create_get_delete (MkUserBase "Ann" "ann@example.com") "u2" 5 sample_db)
    as (_ & _ & _ & _ & _ & H).
  by apply H.
Defined.

(** X18.  Deleting an unknown user answers 404 and changes nothing.
    Deleting a user leaves the other users and all posts in place: its
    posts are still found by [get_post] although listing them now answers
    404. *)
Theorem delete_user_keeps_posts id st :
  (dict_get id (users_db st) = None →
   delete_user id st = (HTTPException 404 "User not found", st))
  ∧ (∀ id', id' ≠ id → get_user id' (delete_user id st).2 = get_user id' st)
  ∧ get_user id (delete_user id st).2 = HTTPException 404 "User not found"
  ∧ (∀ p, get_post p (delete_user id st).2 = get_post p st)
  ∧ user_posts id (delete_user id st).2 = user_posts id st
  ∧ (∀ limit offset, valid_page limit offset = true →
       list_user_posts id limit offset (delete_user id st).2
       = HTTPException 404 "User not found").
Proof.
  unfold delete_user, get_user, get_post, list_user_posts, user_posts.
  destruct (dict_get id (users_db st)) as [u|] eqn:Hu; cbn [fst snd users_db posts_db].
  - split_and!; try done.
    + intros id' Hne. by rewrite dict_get_del_ne.
    + by rewrite dict_get_del_eq.
    + intros limit offset ->. by rewrite dict_get_del_eq.
  - split_and!; try done.
    + by rewrite Hu.
    + intros limit offset ->. by rewrite Hu.
Qed.

(** X18 at the sample tables. *)
Lemma delete_user_keeps_posts_sample :
  get_post "p1" (delete_user "u1" sample_db).2 = get_post "p1" sample_db
  ∧ list_user_posts "u1" 10 0 (delete_user "u1" sample_db).2
    = HTTPException 404 "User not found".
Proof.
  pose proof (delete_user_keeps_posts "u1" sample_db) as (_ & _ & _ & H1 & _ & H2).
  split; [apply H1|by apply H2].
Defined.

(** X19.  Updating a known user replaces name, email and update time and
    keeps its id and creation time; the user keeps its place in the table,
    the other users and the posts are untouched. *)
Theorem update_user_in_place id user_data now st user :
  dict_get id (users_db st) = Some user →
  let updated := update_user id user_data now st in
  updated.1 = Ok (MkUser (user_id user) (base_name user_data) (base_email user_data)
                    (user_created_at user) now)
  ∧ get_user id updated.2 = updated.1
  ∧ (users_db updated.2).*1 = (users_db st).*1
  ∧ (∀ id', id' ≠ id → get_user id' updated.2 = get_user id' st)
  ∧ posts_db updated.2 = posts_db st.
Proof.
  intros Hu updated. unfold updated, update_user, get_user. rewrite Hu.
  cbn [fst snd users_db posts_db]. split_and!; try done.
  - by rewrite dict_get_set_eq.
  - apply dict_set_keys. by rewrite Hu.
  - intros id' Hne. by rewrite dict_get_set_ne.
Qed.


(** X19 at the sample tables. *)
Lemma update_user_in_place_sample :
  (users_db (update_user "u1" (MkUserBase "Jane" "jane@example.com") 9 sample_db).2).*1
  = (users_db sample_db).*1.
Proof.
  pose proof (update_user_in_place "u1" (MkUserBase "Jane" "jane@example.com") 9 sample_db
                (MkUser "u1" "John Doe" "john@example.com" 1 1) eq_refl)
    as (_ & _ & H & _).
  exact H.
Defined.

(** *** Pagination of a user's posts *)

Lemma valid_page_bounds limit offset :
  valid_page limit offset = true ↔ 1 ≤ limit ≤ 100 ∧ 0 ≤ offset.
Proof.
  unfold valid_page. rewrite !andb_true_iff, !Z.leb_le. tauto.
Qed.

Lemma list_user_posts_data id limit offset st user :
  valid_page limit offset = true → dict_get id (users_db st) = Some user →
  page_data (list_user_posts id limit offset st)
  = take (Z.to_nat limit) (drop (Z.to_nat offset) (user_posts id st)).
Proof. intros Hv Hu. unfold list_user_posts. by rewrite Hv, Hu. Qed.

Lemma user_posts_owner id st : Forall (λ p, post_user_id p = id) (user_posts id st).
Proof.
  unfold user_posts. apply Forall_forall. by intros p [? _]%list_elem_of_filter.
Qed.

(** X20.  For parameters within their bounds and a known user, the list
    response carries the total, a page of at most [limit] posts of that user
    taken from the table in order, and [has_more] exactly when the page at
    [offset + limit] is not empty. *)
Theorem list_user_posts_page id limit offset st user :
  valid_page limit offset = true →
  dict_get id (users_db st) = Some user →
  ∃ page,
    list_user_posts id limit offset st = Ok page
    ∧ total (pagination page) = length (user_posts id st)
    ∧ length (data page)
      = (Z.to_nat limit `min` (length (user_posts id st) - Z.to_nat offset))%nat
    ∧ data page `sublist_of` dict_values (posts_db st)
    ∧ Forall (λ p, post_user_id p = id) (data page)
    ∧ (has_more (pagination page) = true ↔
       page_data (list_user_posts id limit (offset + limit) st) ≠ []).
Proof.
  intros Hv Hu. pose proof Hv as [Hl Ho]%valid_page_bounds.
  unfold list_user_posts at 1. rewrite Hv, Hu. eexists. split; [done|].
  cbn [data pagination total has_more]. split_and!.
  - done.
  - by rewrite length_take, length_drop.
  - etrans; [apply sublist_take|]. etrans; [apply sublist_drop|].
    unfold user_posts. apply sublist_filter.
  - apply Forall_take, Forall_drop, user_posts_owner.
  - rewrite (list_user_posts_data _ _ _ _ user);
      [|apply valid_page_bounds; lia|done].
    rewrite bool_decide_eq_true. split.
    + intros Hlt Hnil. apply take_nil_inv in Hnil as [?|Hnil]; [lia|].
      apply drop_nil_inv in Hnil. lia.
    + intros Hne. destruct (decide (offset + limit < Z.of_nat (length (user_posts id st))))
        as [|Hge]; [done|].
      exfalso. apply Hne. rewrite drop_ge by lia. apply take_nil.
Qed.

(** X20 at the sample tables, first page of size 1. *)
Lemma list_user_posts_page_sample :
  ∃ page,
    list_user_posts "u1" 1 0 sample_db = Ok page
    ∧ total (pagination page) = length (user_posts "u1" sample_db)
    ∧ length (data page)
      = (Z.to_nat 1 `min` (length (user_posts "u1" sample_db) - Z.to_nat 0))%nat
    ∧ data page `sublist_of` dict_values (posts_db sample_db)
    ∧ Forall (λ p, post_user_id p = "u1") (data page)
    ∧ (has_more (pagination page) = true ↔
       page_data (list_user_posts "u1" 1 (0 + 1) sample_db) ≠ []).
Proof.
  exact (list_user_posts_page "u1" 1 0 sample_db
           (MkUser "u1" "John Doe" "john@example.com" 1 1) eq_refl eq_refl).
Defined.

(** X21.  The pages at the offsets 0, limit, 2 limit, ... laid end to end
    are the beginning of the user's listing, and all of it once they reach
    its length: paging neither repeats nor skips a post. *)
Theorem pages_tile_the_listing id limit st user (n : nat) :
  1 ≤ limit ≤ 100 →
  dict_get id (users_db st) = Some user →
  let pages :=
    mjoin ((λ k, page_data (list_user_posts id limit (Z.of_nat k * limit) st))
           <$> seq 0 n) in
  pages = take (n * Z.to_nat limit) (user_posts id st)
  ∧ (length (user_posts id st) ≤ n * Z.to_nat limit → pages = user_posts id st)%nat.
Proof.
  intros Hl Hu pages.
  assert (Hp : pages = take (n * Z.to_nat limit) (user_posts id st)).
  { unfold pages. clear pages. induction n as [|n IH]; [done|].
    rewrite seq_S, fmap_app, join_app, IH. cbn [fmap list_fmap mjoin list_join plus].
    rewrite app_nil_r, (list_user_posts_data _ _ _ _ user);
      [|apply valid_page_bounds; lia|done].
    replace (Z.to_nat (Z.of_nat n * limit)) with (n * Z.to_nat limit)%nat by lia.
    rewrite take_take_drop. f_equal. lia. }
  split; [done|]. intros Hall. rewrite Hp. by apply take_ge.
Qed.


(** X21 at the sample tables, two pages of size 1. *)
Lemma pages_tile_the_listing_sample :
  mjoin ((λ k, page_data (list_user_posts "u1" 1 (Z.of_nat k * 1) sample_db))
         <$> seq 0 2)
  = user_posts "u1" sample_db.
Proof.
  pose proof (pages_tile_the_listing "u1" 1 sample_db
                (MkUser "u1" "John Doe" "john@example.com" 1 1) 2) as [_ H].
  - lia.
  - reflexivity.
  - apply H. vm_compute. lia.
Defined.

(** *** Rate limiting *)

Section rate_limiter_facts.
Context {time : Type} (in_window : time → time → Z → bool).

Lemma filter_all {A} (P : A → Prop) `{!∀ x, Decision (P x)} (l : list A) :
  Forall P l → filter P l = l.
Proof.
  induction l as [|x l IH]; [done|]. intros [H1 H2]%Forall_cons.
  rewrite filter_cons_True by done. by rewrite IH.
Qed.

Lemma requests_all_in_window max_requests window_seconds authorization times :
  ∀ recorded storage,
  default [] (storage !! client_id_of authorization) = recorded →
  (∀ t t', t ∈ recorded ++ times → t' ∈ times → in_window t' t window_seconds = true) →
  let accepted :=
    (length times `min` Z.to_nat (max_requests - Z.of_nat (length recorded)))%nat in
  (requests in_window max_requests window_seconds authorization times storage).1
  = replicate accepted (Ok true)
    ++ replicate (length times - accepted) (HTTPException 429 "Rate limit exceeded")
  ∧ default []
      ((requests in_window max_requests window_seconds authorization times storage).2
       !! client_id_of authorization) = recorded ++ take accepted times
  ∧ (∀ c, c ≠ client_id_of authorization →
     (requests in_window max_requests window_seconds authorization times storage).2 !! c
     = storage !! c).
Proof.
  induction times as [|t times IH]; intros recorded storage Hrec Hwin.
  { cbn. by rewrite app_nil_r. }
  cbn [requests]. unfold limiter. rewrite Hrec.
  rewrite filter_all by
    (apply Forall_forall; intros x Hx; rewrite (Hwin x t);
     [done|apply elem_of_app; by left|by left]).
  case_decide as Hfull.
  - specialize (IH recorded (<[client_id_of authorization := recorded]> storage)).
    destruct IH as (IH1 & IH2 & IH3).
    { by rewrite lookup_insert_eq. }
    { intros x y Hx Hy. apply Hwin; [|by right].
      apply elem_of_app in Hx as [?|?]; apply elem_of_app; [by left|right; by right]. }
    destruct (requests _ _ _ _ times _) as [rs s2]. cbn [fst snd] in *.
    replace (Z.to_nat (max_requests - Z.of_nat (length recorded))) with 0%nat in * by lia.
    rewrite Nat.min_0_r in *. cbn [replicate app take length] in *.
    rewrite Nat.sub_0_r in *. split_and!.
    + by rewrite IH1.
    + done.
    + intros c Hc. rewrite IH3 by done. by rewrite lookup_insert_ne.
  - specialize (IH (recorded ++ [t])
                  (<[client_id_of authorization := recorded ++ [t]]> storage)).
    destruct IH as (IH1 & IH2 & IH3).
    { by rewrite lookup_insert_eq. }
    { intros x y Hx Hy. apply Hwin; [|by right].
      rewrite <- app_assoc in Hx. exact Hx. }
    destruct (requests _ _ _ _ times _) as [rs s2]. cbn [fst snd] in *.
    rewrite length_app in *. cbn [length] in *.
    replace (Z.to_nat (max_requests - Z.of_nat (length recorded)))
      with (S (Z.to_nat (max_requests - Z.of_nat (length recorded + 1)))) by lia.
    cbn [Nat.min replicate app take Nat.sub]. split_and!.
    + by rewrite IH1.
    + rewrite IH2. by rewrite <- app_assoc.
    + intros c Hc. rewrite IH3 by done. by rewrite lookup_insert_ne.
Qed.

(** X22.  For a client with no record yet, requests whose times all lie
    within the window of one another are accepted up to [max_requests] and
    answered 429 from then on; the records of other clients are not
    touched. *)
Theorem burst_is_cut_at_the_limit max_requests window_seconds authorization times storage :
  storage !! client_id_of authorization = None →
  (∀ t t', t ∈ times → t' ∈ times → in_window t' t window_seconds = true) →
  let accepted := (length times `min` Z.to_nat max_requests)%nat in
  (requests in_window max_requests window_seconds authorization times storage).1
  = replicate accepted (Ok true)
    ++ replicate (length times - accepted) (HTTPException 429 "Rate limit exceeded")
  ∧ (∀ c, c ≠ client_id_of authorization →
     (requests in_window max_requests window_seconds authorization times storage).2 !! c
     = storage !! c).
Proof.
  intros Hnone Hwin.
  destruct (requests_all_in_window max_requests window_seconds authorization times
              [] storage) as (H1 & _ & H3).
  { by rewrite Hnone. }
  { intros t t' Ht. by apply Hwin. }
  cbn [length] in *. rewrite Z.sub_0_r in *. done.
Qed.

(** X23.  Limiters of different endpoints work on one record per client:
    requests accepted by one limiter count for another, which answers 429
    as soon as the client has as many requests within its window as its own
    limit allows. *)
Theorem limiters_share_one_record max_a window_a max_b window_b authorization
    times now storage :
  storage !! client_id_of authorization = None →
  (∀ t t', t ∈ times → t' ∈ times → in_window t' t window_a = true) →
  (∀ t, t ∈ times → in_window now t window_b = true) →
  (length times ≤ Z.to_nat max_a)%nat →
  max_b ≤ Z.of_nat (length times) →
  (limiter in_window max_b window_b authorization now
     (requests in_window max_a window_a authorization times storage).2).1
  = HTTPException 429 "Rate limit exceeded".
Proof.
  intros Hnone Hwin Hnow Hfit Hmax.
  destruct (requests_all_in_window max_a window_a authorization times
              [] storage) as (_ & H2 & _).
  { by rewrite Hnone. }
  { intros t t' Ht. by apply Hwin. }
  cbn [length app] in H2. rewrite Z.sub_0_r in H2.
  unfold limiter. rewrite H2, Nat.min_l, firstn_all by lia.
  rewrite filter_all by (apply Forall_forall; intros x Hx; by rewrite Hnow).
  by rewrite decide_True.
Qed.

End rate_limiter_facts.

(** X22 at three requests against a limit of two. *)
Lemma burst_is_cut_at_the_limit_three :
  (requests in_window_Z 2 3600 (Some "Bearer k") [10; 11; 12] ∅).1
  = [Ok true; Ok true; HTTPException 429 "Rate limit exceeded"].
Proof.
  pose proof (burst_is_cut_at_the_limit in_window_Z 2 3600 (Some "Bearer k")
                [10; 11; 12] ∅) as [H _].
  - reflexivity.
  - intros t t' Ht Ht'.
    repeat (apply elem_of_cons in Ht as [->|Ht]); try by apply elem_of_nil in Ht.
    all: repeat (apply elem_of_cons in Ht' as [->|Ht']); try by apply elem_of_nil in Ht'.
    all: reflexivity.
  - exact H.
Defined.

(** X23 at two listing requests and a limit of two for creating. *)
Lemma limiters_share_one_record_two :
  (limiter in_window_Z 2 3600 (Some "Bearer k") 20
     (requests in_window_Z 100 3600 (Some "Bearer k") [10; 11] ∅).2).1
  = HTTPException 429 "Rate limit exceeded".
Proof.
  apply limiters_share_one_record; [reflexivity| | |cbn; lia|cbn; lia].
  - intros t t' Ht Ht'.
    repeat (apply elem_of_cons in Ht as [->|Ht]); try by apply elem_of_nil in Ht.
    all: repeat (apply elem_of_cons in Ht' as [->|Ht']); try by apply elem_of_nil in Ht'.
    all: reflexivity.
  - intros t Ht.
    repeat (apply elem_of_cons in Ht as [->|Ht]); try by apply elem_of_nil in Ht.
    all: reflexivity.
Defined.

End RestApiSpec.
